(** * AI Money Manager backend: the heuristic text parser and the record store

    A shallow embedding of [main.py]: the [/api/parse] handler [parse_text]
    with the regular expressions it searches for, the [/api/transactions]
    handler [create_transaction] and the [/api/setup/defaults] handler
    [setup_defaults].

    Scope of the model.
    - A Python [str] is a list of characters whose code points are below
      256 ([ascii] read as Latin-1).  On that range the classes used by the
      program are exactly the ones written below: [str.isspace] and the
      regular-expression class [\s] hold of 9-13, 28-32, 133 and 160, the
      class [\d] holds of [0-9] only, and case-insensitive matching against
      the ASCII letters of the patterns is ASCII case folding.
    - A Python [float] is an IEEE 754 binary64 number, [spec_float] with
      precision 53 and maximal exponent 1024.
    - [datetime.strptime] is modelled under the C locale (English month
      names). *)

From stdpp Require Import base gmap strings.
From Stdlib Require Import List Ascii String ZArith Lia Bool Arith SpecFloat.
Import ListNotations.

Set Implicit Arguments.
Open Scope nat_scope.
Open Scope list_scope.

(** ** Strings *)

Module PyStr.

Definition str := list ascii.

(** A string literal of the source. *)
Definition lit (s : string) : str := list_ascii_of_string s.

Definition code (c : ascii) : nat := nat_of_ascii c.

Definition in_range (lo hi : nat) (c : ascii) : bool :=
  (lo <=? code c) && (code c <=? hi).

(** [str.isspace] on one character; also the class [\s]. *)
Definition isspace (c : ascii) : bool :=
  in_range 9 13 c || in_range 28 32 c || (code c =? 133) || (code c =? 160).

(** The class [\d], which is also [[0-9]] on this range. *)
Definition isdigit (c : ascii) : bool := in_range 48 57 c.

Definition isupper (c : ascii) : bool := in_range 65 90 c.
Definition islower (c : ascii) : bool := in_range 97 122 c.

(** ASCII lower-casing of one character: on this range it decides equality
    without regard to case against the ASCII characters of the patterns. *)
Definition lower (c : ascii) : ascii :=
  if isupper c then ascii_of_nat (code c + 32) else c.

Definition eqc (a b : ascii) : bool := Ascii.eqb a b.

Fixpoint eqs (a b : str) : bool :=
  match a, b with
  | [], [] => true
  | x :: a', y :: b' => eqc x y && eqs a' b'
  | _, _ => false
  end.

(** [s.startswith(p)] *)
Fixpoint startswith (p s : str) : bool :=
  match p, s with
  | [], _ => true
  | x :: p', y :: s' => eqc x y && startswith p' s'
  | _ :: _, [] => false
  end.

(** [s.lstrip()], [s.rstrip()] and [s.strip()] *)
Fixpoint lstrip (s : str) : str :=
  match s with
  | c :: t => if isspace c then lstrip t else s
  | [] => []
  end.

Definition rstrip (s : str) : str := rev (lstrip (rev s)).

Definition strip (s : str) : str := rstrip (lstrip s).

(** The line boundaries of [str.splitlines]: LF, VT, FF, CR, FS, GS, RS and
    NEL; CR LF counts as one boundary. *)
Definition islinebreak (c : ascii) : bool :=
  in_range 10 13 c || in_range 28 30 c || (code c =? 133).

Definition isCR (c : ascii) : bool := code c =? 13.
Definition isLF (c : ascii) : bool := code c =? 10.

(** [splitlines_from cur s]: [cur] is the current line, reversed. *)
Fixpoint splitlines_from (cur s : str) : list str :=
  match s with
  | [] => match cur with [] => [] | _ :: _ => [rev cur] end
  | c :: t =>
      if isCR c then
        match t with
        | d :: t' => if isLF d then rev cur :: splitlines_from [] t'
                     else rev cur :: splitlines_from [] t
        | [] => rev cur :: splitlines_from [] t
        end
      else if islinebreak c then rev cur :: splitlines_from [] t
      else splitlines_from (c :: cur) t
  end.

(** [s.splitlines()] *)
Definition splitlines (s : str) : list str := splitlines_from [] s.

(** [s.split(sep)] for a non-empty separator: [skip] counts the characters
    of a separator just found that are still to be passed over, [cur] is the
    current piece, reversed. *)
Fixpoint split_from (sep : str) (skip : nat) (cur s : str) : list str :=
  match s with
  | [] => [rev cur]
  | c :: t =>
      match skip with
      | S n => split_from sep n cur t
      | O => if startswith sep s
             then rev cur :: split_from sep (List.length sep - 1) [] t
             else split_from sep 0 (c :: cur) t
      end
  end.

Definition split (sep s : str) : list str := split_from sep 0 [] s.

(** [s.replace(old, new)] for a one-character [old]. *)
Definition replace (old : ascii) (new s : str) : str :=
  flat_map (fun c => if eqc c old then new else [c]) s.

(** [int(s)] on a string of decimal digits. *)
Definition digit_val (c : ascii) : nat := code c - 48.

Definition int_of_digits (s : str) : nat :=
  fold_left (fun acc c => 10 * acc + digit_val c) s 0.

(** Decimal rendering with zero padding to [width] digits, the [%0wd] of
    [isoformat]. *)
Fixpoint pad_digits (width n : nat) : str :=
  match width with
  | O => []
  | S w => pad_digits w (n / 10) ++ [ascii_of_nat (48 + n mod 10)]
  end.

End PyStr.
Import PyStr.

(** ** Regular expressions

    The patterns of the program use literals, classes, sequence, ordered
    alternation, greedy repetition, the anchor [^] and capturing groups.
    Matching is by backtracking, in the order Python's engine explores:
    the left alternative first, one more iteration before none. *)

Module Regex.

Inductive re : Type :=
| Eps                              (* the empty pattern *)
| Chr (p : ascii -> bool)          (* one character satisfying [p] *)
| Seq (r1 r2 : re)
| Alt (r1 r2 : re)                 (* [r1|r2], [r1] preferred *)
| Star (r : re)                    (* [r*], greedy *)
| Bol                              (* [^] without MULTILINE *)
| Grp (n : nat) (r : re).          (* capturing group [n] *)

(** The matcher's state: the offset reached, the text that remains and the
    groups captured so far, the latest first. *)
Record mstate : Type := MState {
  pos : nat;
  rest : str;
  caps : list (nat * str)
}.

Definition advance (st : mstate) (t : str) : mstate :=
  MState (S (pos st)) t (caps st).

Definition capture (n : nat) (from to : mstate) : mstate :=
  MState (pos to) (rest to)
         ((n, firstn (pos to - pos from) (rest from)) :: caps to).

Definition orelse {A} (a b : option A) : option A :=
  match a with Some x => Some x | None => b end.

(** The iterations of [r*]: [body] matches [r] once; one more iteration is
    tried before stopping, and an iteration has to consume something (every
    starred pattern of the program consumes a character per iteration).
    [fuel] bounds the number of iterations by the length of the text. *)
Fixpoint star_loop (body : mstate -> (mstate -> option mstate) -> option mstate)
    (k : mstate -> option mstate) (fuel : nat) (st0 : mstate)
  : option mstate :=
  match fuel with
  | O => k st0
  | S fuel' =>
      orelse
        (body st0 (fun st1 =>
           if List.length (rest st1) <? List.length (rest st0)
           then star_loop body k fuel' st1 else None))
        (k st0)
  end.

(** [run r st k]: match [r] at [st] and hand every way of doing so, in
    priority order, to the continuation [k] until one succeeds. *)
Fixpoint run (r : re) (st : mstate) (k : mstate -> option mstate)
  : option mstate :=
  match r with
  | Eps => k st
  | Chr p =>
      match rest st with
      | c :: t => if p c then k (advance st t) else None
      | [] => None
      end
  | Seq r1 r2 => run r1 st (fun st1 => run r2 st1 k)
  | Alt r1 r2 => orelse (run r1 st k) (run r2 st k)
  | Star r1 => star_loop (run r1) k (List.length (rest st)) st
  | Bol => if pos st =? 0 then k st else None
  | Grp n r1 => run r1 st (fun st1 => k (capture n st st1))
  end.

(** A match object: [m.start()], [m.end()] and the groups. *)
Record match_obj : Type := MatchObj {
  m_start : nat;
  m_end : nat;
  m_caps : list (nat * str)
}.

Fixpoint assoc (n : nat) (l : list (nat * str)) : option str :=
  match l with
  | [] => None
  | (i, s) :: l' => if i =? n then Some s else assoc n l'
  end.

(** [m.group(n)] *)
Definition group (n : nat) (m : match_obj) : option str := assoc n (m_caps m).

Definition match_at (r : re) (p : nat) (s : str) : option match_obj :=
  match run r (MState p s []) Some with
  | Some st => Some (MatchObj p (pos st) (caps st))
  | None => None
  end.

(** [search_from r p s]: the leftmost match in [s], which starts at
    offset [p] of the text. *)
Fixpoint search_from (r : re) (p : nat) (s : str) : option match_obj :=
  match match_at r p s with
  | Some m => Some m
  | None =>
      match s with
      | [] => None
      | _ :: t => search_from r (S p) t
      end
  end.

(** [re.search(r, text)] *)
Definition search (r : re) (text : str) : option match_obj :=
  search_from r 0 text.

(** Pattern syntax.  [icase] is the IGNORECASE flag the pattern is compiled
    with. *)
Definition chr (icase : bool) (c : ascii) : re :=
  Chr (fun x => if icase then eqc (lower x) (lower c) else eqc x c).

(** A bracket set of ranges, [[a-z]]; under IGNORECASE the lower-cased
    character is looked up. *)
Definition set_ (icase : bool) (p : ascii -> bool) : re :=
  Chr (fun x => if icase then p (lower x) else p x).

Definition digit : re := Chr isdigit.      (* [\d], [[0-9]] *)
Definition space : re := Chr isspace.      (* [\s] *)

Fixpoint word (icase : bool) (w : str) : re :=
  match w with
  | [] => Eps
  | [c] => chr icase c
  | c :: w' => Seq (chr icase c) (word icase w')
  end.

Definition opt (r : re) : re := Alt r Eps.            (* [r?] *)
Definition plus (r : re) : re := Seq r (Star r).      (* [r+] *)

Fixpoint times (n : nat) (r : re) : re :=             (* [r{n}] *)
  match n with
  | O => Eps
  | 1 => r
  | S n' => Seq r (times n' r)
  end.

Fixpoint upto (n : nat) (r : re) : re :=              (* [r{0,n}] *)
  match n with
  | O => Eps
  | S n' => opt (Seq r (upto n' r))
  end.

Definition between (n m : nat) (r : re) : re :=       (* [r{n,m}] *)
  Seq (times n r) (upto (m - n) r).

Fixpoint alts (rs : list re) : re :=                   (* [r1|r2|...] *)
  match rs with
  | [] => Chr (fun _ => false)
  | [r] => r
  | r :: rs' => Alt r (alts rs')
  end.

Fixpoint seqs (rs : list re) : re :=
  match rs with
  | [] => Eps
  | [r] => r
  | r :: rs' => Seq r (seqs rs')
  end.

End Regex.
Import Regex.

(** ** Floating-point numbers and [float(s)] *)

Module PyFloat.

Definition prec : Z := 53.
Definition emax : Z := 1024.

(** The binary64 number nearest to [n/d], ties to even: the exact quotient is
    computed with its rounding location and rounded once. *)
Definition float_of_ratio (n d : positive) : spec_float :=
  let '(mz, ez, lz) := SFdiv_core_binary prec emax (Zpos n) 0 (Zpos d) 0 in
  binary_round_aux prec emax false mz ez lz.

Definition float_of_fraction (n : nat) (d : positive) : spec_float :=
  match N.of_nat n with
  | N0 => S754_zero false
  | Npos p => float_of_ratio p d
  end.

(** The float of a natural number, as the literal [1500.0] denotes one. *)
Definition float_of_nat (n : nat) : spec_float := float_of_fraction n 1.

(** [0.0] *)
Definition zero : spec_float := S754_zero false.

(** [abs(x)] *)
Definition fabs (x : spec_float) : spec_float := SFabs x.

(** [0 <= x], false when [x] is NaN. *)
Definition nonneg (x : spec_float) : bool := SFleb zero x.

Definition span (p : ascii -> bool) (s : str) : str * str :=
  (fix go (s : str) : str * str :=
     match s with
     | c :: t => if p c then let '(a, b) := go t in (c :: a, b) else ([], s)
     | [] => ([], [])
     end) s.

(** [float(s)] on the plain decimal literals [ddd.ddd] (digits, a point,
    digits; at least one digit before the point), the only strings the
    program converts.  [None] stands for the ValueError raised on a string
    that is no number; exponents, signs, [inf] and [nan] are outside the
    fragment modelled. *)
Definition float_of_str (s : str) : option spec_float :=
  let '(ip, r) := span isdigit s in
  match ip, r with
  | _ :: _, [] => Some (float_of_nat (int_of_digits ip))
  | _ :: _, c :: fp =>
      if eqc c "." && forallb isdigit fp
      then Some (float_of_fraction (int_of_digits (ip ++ fp))
                                   (Pos.of_nat (10 ^ List.length fp)))
      else None
  | [], _ => None
  end.

End PyFloat.
Import PyFloat.

(** ** Dates: [datetime], [isoformat] and [strptime] *)

Module PyDate.

(** A naive [datetime]. *)
Record datetime : Type := DateTime {
  year : nat; month : nat; day : nat;
  hour : nat; minute : nat; second : nat; microsecond : nat
}.

Definition is_leap (y : nat) : bool :=
  (y mod 4 =? 0) && (negb (y mod 100 =? 0) || (y mod 400 =? 0)).

Definition days_in_month (y m : nat) : nat :=
  match m with
  | 2 => if is_leap y then 29 else 28
  | 4 | 6 | 9 | 11 => 30
  | _ => 31
  end.

(** [datetime(y, m, d)], which raises ValueError outside the calendar. *)
Definition make_date (y m d : nat) : option datetime :=
  if (1 <=? y) && (y <=? 9999) && (1 <=? m) && (m <=? 12)
     && (1 <=? d) && (d <=? days_in_month y m)
  then Some (DateTime y m d 0 0 0 0)
  else None.

(** [dt.isoformat()] *)
Definition isoformat (dt : datetime) : str :=
  pad_digits 4 (year dt) ++ lit "-" ++ pad_digits 2 (month dt) ++ lit "-"
  ++ pad_digits 2 (day dt) ++ lit "T" ++ pad_digits 2 (hour dt) ++ lit ":"
  ++ pad_digits 2 (minute dt) ++ lit ":" ++ pad_digits 2 (second dt)
  ++ (if microsecond dt =? 0 then []
      else lit "." ++ pad_digits 6 (microsecond dt)).

Definition a_month : list str :=
  map lit ["jan"; "feb"; "mar"; "apr"; "may"; "jun";
           "jul"; "aug"; "sep"; "oct"; "nov"; "dec"]%string.

Definition f_month : list str :=
  map lit ["january"; "february"; "march"; "april"; "may"; "june"; "july";
           "august"; "september"; "october"; "november"; "december"]%string.

(** The names are tried longest first (a stable sort by decreasing
    length). *)
Fixpoint insert_by_len (w : str) (l : list str) : list str :=
  match l with
  | [] => [w]
  | x :: l' => if List.length x <? List.length w then w :: l
               else x :: insert_by_len w l'
  end.

Definition sort_by_len (l : list str) : list str :=
  fold_left (fun acc w => insert_by_len w acc) l [].

Definition seqToRE (names : list str) : re :=
  alts (map (word true) (sort_by_len names)).

(** A group is named by its directive letter. *)
Definition gname (c : ascii) : nat := code c.

(** [[lo-hi]] *)
Definition range_ (lo hi : ascii) : re := Chr (in_range (code lo) (code hi)).

(** The pattern of one directive of a format. *)
Definition directive (c : ascii) : option re :=
  if eqc c "Y" then Some (Grp (gname "Y") (times 4 digit))
  else if eqc c "m" then
    Some (Grp (gname "m")
            (alts [Seq (chr true "1") (range_ "0" "2");
                   Seq (chr true "0") (range_ "1" "9");
                   range_ "1" "9"]))
  else if eqc c "d" then
    Some (Grp (gname "d")
            (alts [Seq (chr true "3") (range_ "0" "1");
                   Seq (range_ "1" "2") digit;
                   Seq (chr true "0") (range_ "1" "9");
                   range_ "1" "9";
                   Seq (chr true " ") (range_ "1" "9")]))
  else if eqc c "b" then Some (Grp (gname "b") (seqToRE a_month))
  else if eqc c "B" then Some (Grp (gname "B") (seqToRE f_month))
  else None.

(** The pattern of a format: a run of white space stands for [\s+], a
    directive for its pattern, any other character for itself; the whole is
    compiled with IGNORECASE.  [None] is the ValueError of a bad
    directive. *)
Fixpoint format_regex (in_ws : bool) (fmt : str) : option (list re) :=
  match fmt with
  | [] => Some []
  | c :: t =>
      if eqc c "%" then
        match t with
        | d :: t' =>
            match directive d, format_regex false t' with
            | Some r, Some rs => Some (r :: rs)
            | _, _ => None
            end
        | [] => None
        end
      else if isspace c then
        match format_regex true t with
        | Some rs => Some (if in_ws then rs else plus space :: rs)
        | None => None
        end
      else
        match format_regex false t with
        | Some rs => Some (chr true c :: rs)
        | None => None
        end
  end.

Fixpoint index_of (w : str) (l : list str) : option nat :=
  match l with
  | [] => None
  | x :: l' => if eqs x w then Some 0
               else match index_of w l' with
                    | Some i => Some (S i)
                    | None => None
                    end
  end.

(** [int(s)] of a field of the date. *)
Definition int_of (s : str) : nat := int_of_digits (strip s).

Definition month_of (m : match_obj) : option nat :=
  match group (gname "m") m, group (gname "b") m, group (gname "B") m with
  | Some s, _, _ => Some (int_of s)
  | None, Some s, _ => option_map S (index_of (map lower s) a_month)
  | None, None, Some s => option_map S (index_of (map lower s) f_month)
  | None, None, None => Some 1
  end.

(** [datetime.strptime(data, fmt)]; [None] is ValueError. *)
Definition strptime (data fmt : str) : option datetime :=
  match format_regex false fmt with
  | None => None
  | Some rs =>
      match match_at (seqs rs) 0 data with
      | None => None
      | Some m =>
          if m_end m =? List.length data then
            let y := match group (gname "Y") m with
                     | Some s => int_of s | None => 1900 end in
            let d := match group (gname "d") m with
                     | Some s => int_of s | None => 1 end in
            match month_of m with
            | Some mo => make_date y mo d
            | None => None
            end
          else None
      end
  end.

End PyDate.
Import PyDate.

(** ** The parse endpoint *)

Module Parser.

Inductive Direction : Type := expense | income.

(** The dictionary [parse_text] returns. *)
Record ParseResult : Type := Result {
  date : str;
  amount : spec_float;
  direction : Direction;
  description : str;
  merchant : option str
}.

(** What a call of the handler ends in: a value, the HTTPException the
    handler raises, or an exception nothing catches. *)
Inductive exn : Type := AttributeError | IndexError.

Inductive outcome (A : Type) : Type :=
| Return (a : A)
| HTTPException (status_code : nat) (detail : str)
| Uncaught (e : exn).
Arguments Return {A} a.
Arguments HTTPException {A} status_code detail.
Arguments Uncaught {A} e.

Definition bind {A B} (x : outcome A) (f : A -> outcome B) : outcome B :=
  match x with
  | Return a => f a
  | HTTPException c d => HTTPException c d
  | Uncaught e => Uncaught e
  end.

Notation "'let*' x ':=' c 'in' k" := (bind c (fun x => k))
  (at level 10, x name, c at level 100, k at level 200).

(** [m.group(1).f(...)]: on a group that took no part in the match
    [m.group(1)] is [None] and the method call raises AttributeError. *)
Definition group1 (m : match_obj) : outcome str :=
  match group 1 m with
  | Some g => Return g
  | None => Uncaught AttributeError
  end.

(** [[0-9]{1,3}(?:,[0-9]{3})*(?:\.[0-9]{2})|[0-9]+(?:\.[0-9]{2})] *)
Definition number : re :=
  Alt (seqs [between 1 3 digit;
             Star (Seq (chr false ",") (times 3 digit));
             Seq (chr false ".") (times 2 digit)])
      (seqs [plus digit; Seq (chr false ".") (times 2 digit)]).

Definition sign_opt : re := opt (Chr (fun x => eqc x "-" || eqc x "+")).

(** [[-+]?\$\s*(number)] *)
Definition symbol_amount : re :=
  seqs [sign_opt; chr false "$"; Star space; Grp 1 number].

(** [[-+]?(number)\s*(?:USD|usd|US\$)?] *)
Definition bare_amount : re :=
  seqs [sign_opt; Grp 1 number; Star space;
        opt (alts [word false (lit "USD"); word false (lit "usd");
                   word false (lit "US$")])].

Definition amount_patterns : list re := [symbol_amount; bare_amount].

(** [(^|\s)-] *)
Definition minus_pattern : re := Seq (Grp 1 (Alt Bol space)) (chr false "-").

(** The loop over [amount_patterns]: the first pattern found whose
    literal converts gives the amount. *)
Fixpoint find_amount (pats : list re) (text : str)
  : outcome (option spec_float) :=
  match pats with
  | [] => Return None
  | pat :: pats' =>
      match search pat text with
      | Some m =>
          let* g := group1 m in
          let amt_str := replace "," [] g in
          match float_of_str amt_str with
          | Some f => Return (Some (fabs f))
          | None => find_amount pats' text
          end
      | None => find_amount pats' text
      end
  end.

Definition month_names : list str :=
  map lit ["Jan"; "Feb"; "Mar"; "Apr"; "May"; "Jun";
           "Jul"; "Aug"; "Sep"; "Oct"; "Nov"; "Dec"]%string.

(** The three date patterns, compiled with IGNORECASE. *)
Definition iso_date : re :=
  Grp 1 (seqs [times 4 digit; chr true "-"; times 2 digit; chr true "-";
               times 2 digit]).

Definition slash_date : re :=
  Grp 1 (seqs [times 2 digit; chr true "/"; times 2 digit; chr true "/";
               times 4 digit]).

Definition month_date : re :=
  Grp 1 (seqs [alts (map (word true) month_names);
               Star (set_ true islower);
               plus space; between 1 2 digit; opt (chr true ",");
               plus space; times 4 digit]).

Definition date_patterns : list re := [iso_date; slash_date; month_date].

Definition date_formats : list str :=
  map lit ["%Y-%m-%d"; "%d/%m/%Y"; "%m/%d/%Y"; "%b %d %Y"; "%B %d %Y";
           "%b %d, %Y"; "%B %d, %Y"]%string.

(** The loop over the formats: a ValueError moves on to the next one. *)
Fixpoint try_formats (fmts : list str) (raw : str) : option datetime :=
  match fmts with
  | [] => None
  | fmt :: fmts' =>
      match strptime (replace "," [] raw) fmt with
      | Some d => Some d
      | None => try_formats fmts' raw
      end
  end.

(** The loop over [date_patterns]. *)
Fixpoint find_date (pats : list re) (text : str) : outcome (option datetime) :=
  match pats with
  | [] => Return None
  | dp :: pats' =>
      match search dp text with
      | Some m =>
          let* raw := group1 m in
          match try_formats date_formats raw with
          | Some d => Return (Some d)
          | None => find_date pats' text
          end
      | None => find_date pats' text
      end
  end.

(** [\d{1,2}/\d{1,2}/\d{2,4}|\d{4}-\d{2}-\d{2}] *)
Definition date_like : re :=
  Alt (seqs [between 1 2 digit; chr false "/"; between 1 2 digit;
             chr false "/"; between 2 4 digit])
      (seqs [times 4 digit; chr false "-"; times 2 digit; chr false "-";
             times 2 digit]).

(** [\$|USD|Total|Amount|Balance], IGNORECASE *)
Definition money_words : re :=
  alts (map (word true)
          (map lit ["$"; "USD"; "Total"; "Amount"; "Balance"]%string)).

(** [refund|credit|reversal|deposit|salary|income], IGNORECASE *)
Definition income_words : re :=
  alts (map (word true)
          (map lit ["refund"; "credit"; "reversal"; "deposit"; "salary";
                    "income"]%string)).

Definition found (r : re) (s : str) : bool :=
  match search r s with Some _ => true | None => false end.

(** The truth value of a string or a list: false when empty. *)
Definition nonempty {A} (s : list A) : bool :=
  match s with [] => false | _ :: _ => true end.

(** [[ln.strip() for ln in text.splitlines() if ln.strip()]] *)
Definition lines_of (text : str) : list str :=
  map strip (List.filter (fun ln => nonempty (strip ln)) (splitlines text)).

Definition candidates_of (lines : list str) : list str :=
  List.filter (fun ln => negb (found date_like ln)
                         && negb (found money_words ln)) lines.

(** [l[0]], which raises IndexError on an empty list. *)
Definition first {A} (l : list A) : outcome A :=
  match l with
  | x :: _ => Return x
  | [] => Uncaught IndexError
  end.

(** The description and the merchant, both [None] when there is no
    line. *)
Definition describe (text : str) : outcome (option str * option str) :=
  let lines := lines_of text in
  if nonempty lines then
    let candidates := candidates_of lines in
    let* d := (if nonempty candidates then first candidates
               else first lines) in
    let* p := first (split (lit " - ") d) in
    Return (Some d, Some (firstn 80 p))
  else Return (None, None).

Definition minus_seen (text : str) : bool := found minus_pattern text.

Definition infer_direction (text : str) : Direction :=
  let sign := if minus_seen text then (-1)%Z else 1%Z in
  if (sign <? 0)%Z || found income_words text then income else expense.

(** [x or ""] and [x or None] on an optional string *)
Definition or_empty (x : option str) : str :=
  match x with Some (c :: s) => c :: s | _ => [] end.

Definition or_none (x : option str) : option str :=
  match x with Some (c :: s) => Some (c :: s) | _ => None end.

(** [parse_text(req)]; [now] is what [datetime.now()] returns during the
    call. *)
Definition parse_text (now : datetime) (req_text : str) : outcome ParseResult :=
  let text := strip req_text in
  if negb (nonempty text) then HTTPException 400 (lit "Text is required")
  else
    let* amount := find_amount amount_patterns text in
    let* date_found := find_date date_patterns text in
    let date_found := match date_found with Some d => d | None => now end in
    let* dm := describe text in
    let '(description, merchant) := dm in
    let direction := infer_direction text in
    Return (Result (isoformat date_found)
                   (match amount with Some a => a | None => zero end)
                   direction
                   (or_empty description)
                   (or_none merchant)).

End Parser.
Import Parser.

(** ** The record store and the handlers that write to it *)

Module Store.

Inductive value : Type :=
| VNone
| VStr (s : str)
| VFloat (f : spec_float)
| VDate (d : datetime).

(** A document is a dictionary from field names to values. *)
Abbreviation document := (gmap string value).

(** The database: the documents of each named collection in insertion
    order, the number of identifiers handed out, and, when the store cannot
    be reached, the message of the exception every operation raises. *)
Record database : Type := Database {
  down : option str;
  colls : gmap string (list document);
  next_id : nat
}.

(** [db[name]]: a collection never written to is empty. *)
Definition coll (db : database) (name : string) : list document :=
  default [] (colls db !! name).

(** What a store operation or a [try] body ends in: a value and the new
    database, or an exception with its message. *)
Definition attempt (A : Type) : Type := (A * database) + str.

(** [db[name].count_documents({})] *)
Definition count_documents (name : string) (db : database) : attempt nat :=
  match down db with
  | Some msg => inr msg
  | None => inl (List.length (coll db name), db)
  end.

(** Modelled from the spec: [create_document] of the database module, which
    is not among the sources.  It inserts the fields as one new document of
    the named collection and returns the identifier the store assigns; a
    store that cannot be reached raises. *)
Definition create_document (name : string) (data : document) (db : database)
  : attempt nat :=
  match down db with
  | Some msg => inr msg
  | None =>
      inl (next_id db,
           Database None (<[name := coll db name ++ [data]]> (colls db))
                    (S (next_id db)))
  end.

(** [try: ... except Exception as e: raise HTTPException(500, str(e))] *)
Definition guarded {A} (body : attempt A) (db : database)
  : outcome A * database :=
  match body with
  | inl (a, db') => (Return a, db')
  | inr msg => (HTTPException 500 msg, db)
  end.

Definition then_ {A B} (x : attempt A) (f : A -> database -> attempt B)
  : attempt B :=
  match x with
  | inl (a, db) => f a db
  | inr msg => inr msg
  end.

(** The request model [TransactionCreate]. *)
Record TransactionCreate : Type := Transaction {
  t_date : datetime;
  t_amount : spec_float;
  t_direction : Direction;
  t_description : str;
  t_category_id : option str;
  t_account_id : option str;
  t_merchant : option str;
  t_notes : option str
}.

Definition opt_value (x : option str) : value :=
  match x with Some s => VStr s | None => VNone end.

Definition direction_name (d : Direction) : str :=
  match d with expense => lit "expense" | income => lit "income" end.

(** [payload.model_dump()] *)
Definition model_dump (p : TransactionCreate) : document :=
  <["notes" := opt_value (t_notes p)]>
  (<["merchant" := opt_value (t_merchant p)]>
  (<["account_id" := opt_value (t_account_id p)]>
  (<["category_id" := opt_value (t_category_id p)]>
  (<["description" := VStr (t_description p)]>
  (<["direction" := VStr (direction_name (t_direction p))]>
  (<["amount" := VFloat (t_amount p)]>
  (<["date" := VDate (t_date p)]> ∅))))))).

(** [abs(float(v))] on a field of the dictionary; a missing or
    non-numeric field raises. *)
Definition abs_float (v : option value) : str + value :=
  match v with
  | Some (VFloat f) => inr (VFloat (fabs f))
  | _ => inl (lit "float() argument must be a string or a real number")
  end.

(** [create_transaction(payload)] *)
Definition create_transaction (payload : TransactionCreate) (db : database)
  : outcome nat * database :=
  guarded
    (let data := model_dump payload in
     match abs_float (data !! "amount") with
     | inr a => create_document "transaction" (<["amount" := a]> data) db
     | inl msg => inr msg
     end) db.

Definition category (name color icon : string) : document :=
  <["icon" := VStr (lit icon)]>
  (<["color" := VStr (lit color)]>
  (<["name" := VStr (lit name)]> ∅)).

Definition defaults : list document :=
  [category "Groceries" "#22c55e" "shopping-basket";
   category "Restaurants" "#f97316" "utensils";
   category "Transport" "#06b6d4" "car";
   category "Rent" "#6366f1" "home";
   category "Utilities" "#14b8a6" "zap";
   category "Salary" "#84cc16" "banknote";
   category "Other" "#64748b" "dots"].

Definition cash_account : document :=
  <["currency" := VStr (lit "USD")]>
  (<["type" := VStr (lit "cash")]>
  (<["name" := VStr (lit "Cash")]> ∅)).

(** [for c in docs: create_document(name, c)] *)
Fixpoint create_all (name : string) (docs : list document) (db : database)
  : attempt unit :=
  match docs with
  | [] => inl (tt, db)
  | c :: docs' =>
      then_ (create_document name c db) (fun _ db' => create_all name docs' db')
  end.

(** [setup_defaults()] *)
Definition setup_defaults (db : database) : outcome unit * database :=
  guarded
    (then_ (count_documents "category" db) (fun n db1 =>
     then_ (if n =? 0 then create_all "category" defaults db1
            else inl (tt, db1)) (fun _ db2 =>
     then_ (count_documents "account" db2) (fun k db3 =>
     if k =? 0 then
       then_ (create_document "account" cash_account db3)
             (fun _ db4 => inl (tt, db4))
     else inl (tt, db3))))) db.

(** A reachable store with nothing in it. *)
Definition empty_db : database := Database None ∅ 0.

End Store.
Import Store.

(** ** What a pattern matches

    The matcher explores alternatives in a fixed order; what it can find at
    all is described by a relation between the state before and the state
    after a match, and, for patterns without [^], by the set of words. *)

Module Semantics.

Inductive matches : re -> mstate -> mstate -> Prop :=
| M_Eps st : matches Eps st st
| M_Chr p st c t :
    rest st = c :: t -> p c = true -> matches (Chr p) st (advance st t)
| M_Seq r1 r2 st st1 st2 :
    matches r1 st st1 -> matches r2 st1 st2 -> matches (Seq r1 r2) st st2
| M_AltL r1 r2 st st1 : matches r1 st st1 -> matches (Alt r1 r2) st st1
| M_AltR r1 r2 st st1 : matches r2 st st1 -> matches (Alt r1 r2) st st1
| M_Star0 r st : matches (Star r) st st
| M_StarS r st st1 st2 :
    matches r st st1 ->
    List.length (rest st1) < List.length (rest st) ->
    matches (Star r) st1 st2 ->
    matches (Star r) st st2
| M_Bol st : pos st = 0 -> matches Bol st st
| M_Grp n r st st1 : matches r st st1 -> matches (Grp n r) st (capture n st st1).

(** The words of a pattern in which [^] does not occur. *)
Fixpoint lang (r : re) (w : str) : Prop :=
  match r with
  | Eps => w = []
  | Chr p => exists c, w = [c] /\ p c = true
  | Seq r1 r2 => exists w1 w2, w = w1 ++ w2 /\ lang r1 w1 /\ lang r2 w2
  | Alt r1 r2 => lang r1 w \/ lang r2 w
  | Star r1 => exists ws, w = List.concat ws /\ Forall (fun x => x <> [] /\ lang r1 x) ws
  | Bol => False
  | Grp _ r1 => lang r1 w
  end.

Fixpoint bol_free (r : re) : bool :=
  match r with
  | Eps | Chr _ => true
  | Seq r1 r2 | Alt r1 r2 => bol_free r1 && bol_free r2
  | Star r1 | Grp _ r1 => bol_free r1
  | Bol => false
  end.

Fixpoint group_free (r : re) : bool :=
  match r with
  | Eps | Chr _ | Bol => true
  | Seq r1 r2 | Alt r1 r2 => group_free r1 && group_free r2
  | Star r1 => group_free r1
  | Grp _ _ => false
  end.

(** The state in which a search examines offset [i] of [text]. *)
Definition at_offset (text : str) (i : nat) : mstate :=
  MState i (skipn i text) [].

(** The pattern matches somewhere in the text. *)
Definition occurs (r : re) (text : str) : Prop :=
  exists i st', i <= List.length text /\ matches r (at_offset text i) st'.

(** [m] is a match of the pattern at the least offset where it matches. *)
Definition leftmost (r : re) (text : str) (m : match_obj) : Prop :=
  exists st',
    m_start m <= List.length text /\
    matches r (at_offset text (m_start m)) st' /\
    m_end m = pos st' /\ m_caps m = caps st' /\
    forall j st'', j < m_start m -> ~ matches r (at_offset text j) st''.

(** [w] is a piece of [s]. *)
Definition infix (w s : str) : Prop := exists pre post, s = pre ++ w ++ post.

End Semantics.
Import Semantics.

(** ** Auxiliary notions for the statements *)

Module Notions.

(** Every match of [r] sets group [n]. *)
Fixpoint captures (n : nat) (r : re) : bool :=
  match r with
  | Grp m r1 => (m =? n) || captures n r1
  | Seq r1 r2 => captures n r1 || captures n r2
  | Alt r1 r2 => captures n r1 && captures n r2
  | Eps | Chr _ | Star _ | Bol => false
  end.

(** The text is empty or white space only. *)
Definition blank (s : str) : bool := forallb isspace s.

(** The test a line passes to become a candidate for the description. *)
Definition kept (ln : str) : bool :=
  negb (found date_like ln) && negb (found money_words ln).

(** [d] is the line the description is taken from: the first line kept, or
    the first line when none is kept. *)
Definition chosen (lines : list str) (d : str) : Prop :=
  (exists pre post, lines = pre ++ d :: post
                    /\ (forall y, In y pre -> kept y = false)
                    /\ kept d = true)
  \/ ((forall y, In y lines -> kept y = false)
      /\ exists rest, lines = d :: rest).

(** [sep] occurs in [s], first after the prefix [p]. *)
Definition first_at (sep s p : str) : Prop :=
  (exists q, s = p ++ sep ++ q) /\
  forall p' q', s = p' ++ sep ++ q' -> List.length p <= List.length p'.

(** [sep] does not occur in [s]. *)
Definition absent (sep s : str) : Prop := forall p q, s <> p ++ sep ++ q.

(** [p] is [s] up to the first [sep], all of [s] when there is none. *)
Definition before_first (sep s p : str) : Prop :=
  first_at sep s p \/ (absent sep s /\ p = s).

(** The words of the specification for the shapes the patterns look for. *)

Definition digits (w : str) : Prop := forallb isdigit w = true.

(** One to three digits, then any number of groups of a comma and three
    digits. *)
Definition thousands_grouped (ip : str) : Prop :=
  exists h gs,
    ip = h ++ List.concat gs
    /\ digits h /\ 1 <= List.length h <= 3
    /\ Forall (fun x => exists g, x = "," :: g /\ digits g
                                  /\ List.length g = 3)%char gs.

(** A number with optional thousands separators and exactly two decimal
    digits. *)
Definition money_literal (g : str) : Prop :=
  exists ip fp,
    g = ip ++ "."%char :: fp
    /\ digits fp /\ List.length fp = 2
    /\ (thousands_grouped ip \/ (digits ip /\ ip <> [])).

(** The value of a literal in hundredths, separators and point left out,
    and the float it denotes. *)
Definition cents (g : str) : nat := int_of_digits (List.filter isdigit g).

Definition amount_of_literal (g : str) : spec_float :=
  float_of_fraction (cents g) 100.

(** The integer part of a literal: stripping its commas leaves its digits,
    and there is at least one. *)
Definition integer_part (ip : str) : Prop :=
  replace "," [] ip = List.filter isdigit ip
  /\ digits (List.filter isdigit ip)
  /\ List.filter isdigit ip <> [].

(** The amount comes from the match [re.search] returns for [r]: a match at
    the least offset, whose group 1 is a money literal of the text. *)
Definition amount_taken_from (r : re) (text : str) (v : spec_float) : Prop :=
  exists m g,
    search r text = Some m /\ leftmost r text m
    /\ group 1 m = Some g /\ infix g text
    /\ money_literal g /\ v = amount_of_literal g.

(** The text holds a currency-symbol-prefixed number: a dollar sign, any
    white space, a money literal. *)
Definition has_symbol_amount (text : str) : Prop :=
  exists ws g,
    infix ("$"%char :: ws ++ g) text /\ blank ws = true /\ money_literal g.

(** The text holds a bare number: a money literal. *)
Definition has_bare_amount (text : str) : Prop :=
  exists g, infix g text /\ money_literal g.

(** [r] is a sequence in which the only group is [Grp n body]. *)
Inductive sole_group (n : nat) (body : re) : re -> Prop :=
| sg_here : group_free body = true -> sole_group n body (Grp n body)
| sg_left r1 r2 :
    sole_group n body r1 -> group_free r2 = true ->
    sole_group n body (Seq r1 r2)
| sg_right r1 r2 :
    group_free r1 = true -> sole_group n body r2 ->
    sole_group n body (Seq r1 r2).

(** A slash date: one or two digits, a slash, one or two digits, a slash,
    two to four digits. *)
Definition slash_date_like (w : str) : Prop :=
  exists a b c,
    w = a ++ "/"%char :: b ++ "/"%char :: c
    /\ digits a /\ 1 <= List.length a <= 2
    /\ digits b /\ 1 <= List.length b <= 2
    /\ digits c /\ 2 <= List.length c <= 4.

(** An ISO date: four digits, a hyphen, two digits, a hyphen, two
    digits. *)
Definition iso_date_like (w : str) : Prop :=
  exists y m d,
    w = y ++ "-"%char :: m ++ "-"%char :: d
    /\ digits y /\ List.length y = 4
    /\ digits m /\ List.length m = 2
    /\ digits d /\ List.length d = 2.

Definition has_date_like (ln : str) : Prop :=
  exists w, infix w ln /\ (slash_date_like w \/ iso_date_like w).

(** Equal but for the case of letters. *)
Definition same_letters (a b : str) : Prop := map lower a = map lower b.

Definition label_words : list str :=
  map lit ["$"; "USD"; "Total"; "Amount"; "Balance"]%string.

Definition has_label (ln : str) : Prop :=
  exists w kw, infix w ln /\ In kw label_words /\ same_letters w kw.

Definition excluded (ln : str) : Prop := has_date_like ln \/ has_label ln.

(** The description as the specification words it: the first line that
    holds neither a date-like piece nor a label word, or the first line
    when every line holds one. *)
Definition spec_description (lines : list str) (d : str) : Prop :=
  (exists pre post, lines = pre ++ d :: post
                    /\ (forall y, In y pre -> excluded y)
                    /\ ~ excluded d)
  \/ ((forall y, In y lines -> excluded y)
      /\ exists rest, lines = d :: rest).

(** A float that is a number and not below zero. *)
Definition is_magnitude (x : spec_float) : bool :=
  match x with
  | S754_zero false | S754_infinity false | S754_finite false _ _ => true
  | _ => false
  end.

(** The result [r] with another date. *)
Definition with_date (d : str) (r : ParseResult) : ParseResult :=
  Result d (amount r) (direction r) (description r) (merchant r).

(** A payload whose amount is the float NaN. *)
Definition nan_payload : TransactionCreate :=
  Transaction (DateTime 2025 1 31 0 0 0 0) S754_nan expense (lit "Groceries")
              None None None None.

(** A receipt of three lines, separated by line feeds. *)
Definition receipt : str :=
  lit "Total $12.00" ++ [ascii_of_nat 10] ++ lit "Acme Store - NY"
  ++ [ascii_of_nat 10] ++ lit "2025-01-31".

End Notions.
Import Notions.

(** * Properties *)

Unset Implicit Arguments.

(** ** The matcher finds what the pattern matches *)

Section Matcher.

Lemma matches_eps_inv st st' : matches Eps st st' -> st' = st.
Proof. intros H. inversion H. reflexivity. Qed.

Lemma matches_chr_inv p st st' :
  matches (Chr p) st st' ->
  exists c t, rest st = c :: t /\ p c = true /\ st' = advance st t.
Proof. intros H. inversion H; subst. eauto. Qed.

Lemma matches_seq_inv r1 r2 st st' :
  matches (Seq r1 r2) st st' ->
  exists st1, matches r1 st st1 /\ matches r2 st1 st'.
Proof. intros H. inversion H; subst. eauto. Qed.

Lemma matches_alt_inv r1 r2 st st' :
  matches (Alt r1 r2) st st' -> matches r1 st st' \/ matches r2 st st'.
Proof. intros H. inversion H; subst; auto. Qed.

Lemma matches_star_inv r st st' :
  matches (Star r) st st' ->
  st' = st \/
  exists st1, matches r st st1 /\
              List.length (rest st1) < List.length (rest st) /\
              matches (Star r) st1 st'.
Proof. intros H. inversion H; subst; eauto. Qed.

Lemma matches_bol_inv st st' : matches Bol st st' -> st' = st /\ pos st = 0.
Proof. intros H. inversion H; subst. auto. Qed.

Lemma matches_grp_inv n r st st' :
  matches (Grp n r) st st' ->
  exists st1, matches r st st1 /\ st' = capture n st st1.
Proof. intros H. inversion H; subst. eauto. Qed.


Lemma orelse_some {A} (a b : option A) x :
  orelse a b = Some x -> a = Some x \/ (a = None /\ b = Some x).
Proof. destruct a; simpl; intros H; [left | right]; auto. Qed.

Lemma star_loop_sound body k :
  forall r,
  (forall st k' x, body st k' = Some x ->
     exists st', matches r st st' /\ k' st' = Some x) ->
  forall fuel st x, star_loop body k fuel st = Some x ->
  exists st', matches (Star r) st st' /\ k st' = Some x.
Proof.
  intros r Hbody fuel.
  induction fuel as [|fuel IH]; intros st x H; simpl in H.
  - exists st. split; [constructor | exact H].
  - apply orelse_some in H. destruct H as [H | [_ H]].
    + apply Hbody in H. destruct H as (st1 & Hm & Hk).
      destruct (Nat.ltb_spec (List.length (rest st1)) (List.length (rest st)))
        as [Hlt | Hge]; [| discriminate].
      apply IH in Hk. destruct Hk as (st2 & Hs & Hk).
      exists st2. split; [eapply M_StarS; eauto | exact Hk].
    + exists st. split; [constructor | exact H].
Qed.

Lemma run_sound r :
  forall st k x, run r st k = Some x ->
  exists st', matches r st st' /\ k st' = Some x.
Proof.
  induction r as [| p | r1 IH1 r2 IH2 | r1 IH1 r2 IH2 | r1 IH1 | | n r1 IH1];
    intros st k x H; simpl in H.
  - exists st. split; [constructor | exact H].
  - destruct (rest st) as [| c t] eqn:E; [discriminate |].
    destruct (p c) eqn:Ep; [| discriminate].
    exists (advance st t). split; [econstructor; eauto | exact H].
  - apply IH1 in H. destruct H as (st1 & H1 & H).
    apply IH2 in H. destruct H as (st2 & H2 & H).
    exists st2. split; [econstructor; eauto | exact H].
  - apply orelse_some in H. destruct H as [H | [_ H]].
    + apply IH1 in H. destruct H as (st1 & H1 & H).
      exists st1. split; [apply M_AltL; exact H1 | exact H].
    + apply IH2 in H. destruct H as (st1 & H1 & H).
      exists st1. split; [apply M_AltR; exact H1 | exact H].
  - eapply star_loop_sound; eauto.
  - destruct (Nat.eqb_spec (pos st) 0) as [E |]; [| discriminate].
    exists st. split; [constructor; exact E | exact H].
  - apply IH1 in H. destruct H as (st1 & H1 & H).
    exists (capture n st st1). split; [constructor; exact H1 | exact H].
Qed.

Lemma orelse_is_some {A} (a b : option A) :
  a <> None \/ b <> None -> orelse a b <> None.
Proof. destruct a; simpl; intros [H | H]; congruence. Qed.

(** The iterations of a star never need more fuel than the text is long. *)
Lemma star_loop_complete r k :
  (forall st st' k' x, matches r st st' -> k' st' = Some x ->
     run r st k' <> None) ->
  forall st st', matches (Star r) st st' ->
  forall x, k st' = Some x ->
  forall fuel, List.length (rest st) <= fuel ->
  star_loop (run r) k fuel st <> None.
Proof.
  intros Hbody st st' Hm.
  remember (Star r) as sr eqn:Esr.
  induction Hm; try discriminate; inversion Esr; subst; clear Esr;
    intros x Hk fuel Hfuel.
  - destruct fuel; simpl; [congruence |].
    apply orelse_is_some. right. congruence.
  - destruct fuel as [| fuel]; [lia |]. simpl.
    apply orelse_is_some. left.
    specialize (IHHm2 eq_refl x Hk fuel ltac:(lia)).
    destruct (star_loop (run r) k fuel st1) as [y |] eqn:Ey; [| congruence].
    eapply Hbody; [exact Hm1 |].
    simpl. destruct (Nat.ltb_spec (List.length (rest st1)) (List.length (rest st)));
      [exact Ey | lia].
Qed.

Lemma run_complete r :
  forall st st' k x, matches r st st' -> k st' = Some x -> run r st k <> None.
Proof.
  induction r as [| p | r1 IH1 r2 IH2 | r1 IH1 r2 IH2 | r1 IH1 | | n r1 IH1];
    intros st st' k x Hm Hk.
  - apply matches_eps_inv in Hm. subst. simpl. congruence.
  - apply matches_chr_inv in Hm. destruct Hm as (c & t & Hr & Hp & ->).
    simpl. rewrite Hr, Hp. congruence.
  - apply matches_seq_inv in Hm. destruct Hm as (st1 & H1 & H2). simpl.
    destruct (run r2 st1 k) as [y |] eqn:Ey.
    + eapply IH1; [eassumption |]. simpl. exact Ey.
    + exfalso. eapply IH2; eauto.
  - simpl. apply orelse_is_some. apply matches_alt_inv in Hm.
    destruct Hm as [Hm | Hm].
    + left. eapply IH1; eauto.
    + right. eapply IH2; eauto.
  - simpl. eapply star_loop_complete; eauto.
  - apply matches_bol_inv in Hm. destruct Hm as [-> E]. simpl.
    rewrite E. simpl. congruence.
  - apply matches_grp_inv in Hm. destruct Hm as (st1 & H1 & ->). simpl.
    eapply IH1; [eassumption |]. simpl. exact Hk.
Qed.

Lemma match_at_some r p s m :
  match_at r p s = Some m ->
  exists st', matches r (MState p s []) st' /\ m = MatchObj p (pos st') (caps st').
Proof.
  unfold match_at. intros H.
  destruct (run r (MState p s []) Some) as [st |] eqn:E; [| discriminate].
  apply run_sound in E. destruct E as (st' & Hm & Hk).
  injection Hk as ->. injection H as <-. eauto.
Qed.

Lemma match_at_none r p s st' :
  match_at r p s = None -> ~ matches r (MState p s []) st'.
Proof.
  unfold match_at. intros H Hm.
  destruct (run r (MState p s []) Some) as [st |] eqn:E; [discriminate |].
  eapply run_complete in Hm; [apply Hm; exact E | reflexivity].
Qed.

Lemma search_from_some r :
  forall s p m, search_from r p s = Some m ->
  exists i st',
    i <= List.length s /\ m_start m = p + i /\
    matches r (MState (p + i) (skipn i s) []) st' /\
    m_end m = pos st' /\ m_caps m = caps st' /\
    forall j st'', j < i -> ~ matches r (MState (p + j) (skipn j s) []) st''.
Proof.
  induction s as [| c s IH]; intros p m H; simpl in H.
  - destruct (match_at r p []) as [m' |] eqn:E; [| discriminate].
    injection H as ->. apply match_at_some in E.
    destruct E as (st' & Hm & ->).
    exists 0, st'. rewrite Nat.add_0_r. simpl.
    repeat split; auto. intros j st'' Hj. lia.
  - destruct (match_at r p (c :: s)) as [m' |] eqn:E.
    + injection H as ->. apply match_at_some in E.
      destruct E as (st' & Hm & ->).
      exists 0, st'. rewrite Nat.add_0_r. simpl.
      repeat split; auto; [lia |]. intros j st'' Hj. lia.
    + apply IH in H.
      destruct H as (i & st' & Hi & Hs & Hm & He & Hc & Hleft).
      exists (S i), st'.
      change (skipn (S i) (c :: s)) with (skipn i s).
      replace (p + S i) with (S p + i) by lia.
      repeat split; auto; [simpl; lia |].
      intros [| j] st'' Hj.
      * rewrite Nat.add_0_r. simpl. apply match_at_none. exact E.
      * replace (p + S j) with (S p + j) by lia.
        change (skipn (S j) (c :: s)) with (skipn j s).
        apply Hleft. lia.
Qed.

Lemma search_from_none r :
  forall s p, search_from r p s = None ->
  forall i st', i <= List.length s ->
  ~ matches r (MState (p + i) (skipn i s) []) st'.
Proof.
  induction s as [| c s IH]; intros p H i st' Hi; simpl in H.
  - destruct (match_at r p []) eqn:E; [discriminate |].
    simpl in Hi. assert (i = 0) as -> by lia.
    rewrite Nat.add_0_r. simpl. apply match_at_none. exact E.
  - destruct (match_at r p (c :: s)) eqn:E; [discriminate |].
    destruct i as [| i].
    + rewrite Nat.add_0_r. simpl. apply match_at_none. exact E.
    + replace (p + S i) with (S p + i) by lia.
      change (skipn (S i) (c :: s)) with (skipn i s).
      apply IH; [exact H | simpl in Hi; lia].
Qed.

(** [re.search] returns a match at the least offset that has one. *)
Lemma search_leftmost r text m : search r text = Some m -> leftmost r text m.
Proof.
  unfold search. intros H. apply search_from_some in H.
  destruct H as (i & st' & Hi & Hs & Hm & He & Hc & Hleft).
  simpl in Hs. exists st'. unfold at_offset. rewrite Hs.
  repeat split; auto.
Qed.

(** [re.search] returns [None] exactly when the pattern matches nowhere. *)
Lemma search_none_iff r text : search r text = None <-> ~ occurs r text.
Proof.
  unfold search, occurs. split.
  - intros H (i & st' & Hi & Hm).
    exact (search_from_none r text 0 H i st' Hi Hm).
  - intros H. destruct (search_from r 0 text) as [m |] eqn:E; [| reflexivity].
    exfalso. apply H. apply search_from_some in E.
    destruct E as (i & st' & Hi & _ & Hm & _). exists i, st'. auto.
Qed.

Lemma found_iff r text : found r text = true <-> occurs r text.
Proof.
  unfold found. destruct (search r text) as [m |] eqn:E.
  - split; [intros _ | reflexivity].
    apply search_leftmost in E. destruct E as (st' & Hi & Hm & _).
    exists (m_start m), st'. auto.
  - apply search_none_iff in E. split; [discriminate | contradiction].
Qed.

(** A match consumes a word of the text and counts its characters. *)
Lemma matches_word r st st' :
  matches r st st' ->
  exists w, rest st = w ++ rest st' /\ pos st' = pos st + List.length w.
Proof.
  induction 1.
  - exists []. simpl. auto.
  - exists [c]. simpl. split; [assumption | lia].
  - destruct IHmatches1 as (w1 & E1 & P1), IHmatches2 as (w2 & E2 & P2).
    exists (w1 ++ w2). rewrite E1, E2, <- app_assoc, length_app.
    split; [reflexivity | lia].
  - assumption.
  - assumption.
  - exists []. simpl. auto.
  - destruct IHmatches1 as (w1 & E1 & P1), IHmatches2 as (w2 & E2 & P2).
    exists (w1 ++ w2). rewrite E1, E2, <- app_assoc, length_app.
    split; [reflexivity | lia].
  - exists []. simpl. auto.
  - destruct IHmatches as (w & E & P). exists w. simpl. auto.
Qed.

Lemma matches_lang r st st' :
  bol_free r = true -> matches r st st' ->
  exists w, lang r w /\ rest st = w ++ rest st' /\
            pos st' = pos st + List.length w.
Proof.
  intros Hb Hm. induction Hm; simpl in Hb; try discriminate.
  - exists []. simpl. auto.
  - exists [c]. simpl. repeat split; eauto. lia.
  - apply andb_prop in Hb. destruct Hb as [Hb1 Hb2].
    destruct (IHHm1 Hb1) as (w1 & L1 & E1 & P1).
    destruct (IHHm2 Hb2) as (w2 & L2 & E2 & P2).
    exists (w1 ++ w2). rewrite E1, E2, <- app_assoc, length_app.
    repeat split; [simpl; eauto | lia].
  - apply andb_prop in Hb. destruct Hb as [Hb1 Hb2].
    destruct (IHHm Hb1) as (w & L & E & P). exists w. simpl. auto.
  - apply andb_prop in Hb. destruct Hb as [Hb1 Hb2].
    destruct (IHHm Hb2) as (w & L & E & P). exists w. simpl. auto.
  - exists []. simpl. repeat split; auto. exists []. auto.
  - destruct (IHHm1 Hb) as (w1 & L1 & E1 & P1).
    destruct (IHHm2 Hb) as (w2 & L2 & E2 & P2).
    exists (w1 ++ w2). rewrite E1, E2, <- app_assoc, length_app.
    repeat split; [| lia].
    simpl in L2. destruct L2 as (ws & -> & Hws).
    exists (w1 :: ws). split; [reflexivity |].
    constructor; [| exact Hws]. split; [| exact L1].
    intros ->. rewrite E1 in H. simpl in H. lia.
  - destruct (IHHm Hb) as (w & L & E & P). exists w. simpl. auto.
Qed.

Lemma lang_matches r :
  bol_free r = true ->
  forall w, lang r w ->
  forall st t, rest st = w ++ t ->
  exists st', matches r st st' /\ rest st' = t /\
              pos st' = pos st + List.length w.
Proof.
  induction r as [| p | r1 IH1 r2 IH2 | r1 IH1 r2 IH2 | r1 IH1 | | n r1 IH1];
    intros Hb w L st t E; simpl in Hb, L.
  - subst w. exists st. repeat split; [constructor | exact E | simpl; lia].
  - destruct L as (c & -> & Hp). exists (advance st t).
    repeat split; [econstructor; eauto | simpl; lia].
  - apply andb_prop in Hb. destruct Hb as [Hb1 Hb2].
    destruct L as (w1 & w2 & -> & L1 & L2). rewrite <- app_assoc in E.
    destruct (IH1 Hb1 _ L1 _ _ E) as (st1 & M1 & E1 & P1).
    destruct (IH2 Hb2 _ L2 _ _ E1) as (st2 & M2 & E2 & P2).
    exists st2. repeat split; [econstructor; eauto | exact E2 |].
    rewrite length_app. lia.
  - apply andb_prop in Hb. destruct Hb as [Hb1 Hb2]. destruct L as [L | L].
    + destruct (IH1 Hb1 _ L _ _ E) as (st1 & M1 & E1 & P1).
      exists st1. repeat split; auto. apply M_AltL. exact M1.
    + destruct (IH2 Hb2 _ L _ _ E) as (st1 & M1 & E1 & P1).
      exists st1. repeat split; auto. apply M_AltR. exact M1.
  - destruct L as (ws & -> & Hws). revert st E.
    induction Hws as [| x ws [Hx Lx] Hws IHws]; intros st E.
    + exists st. repeat split; [constructor | exact E | simpl; lia].
    + simpl in E. rewrite <- app_assoc in E.
      destruct (IH1 Hb _ Lx _ _ E) as (st1 & M1 & E1 & P1).
      destruct (IHws st1 E1) as (st2 & M2 & E2 & P2).
      exists st2. repeat split; [| exact E2 |].
      * eapply M_StarS; [exact M1 | | exact M2].
        rewrite E, length_app, <- E1. destruct x; [congruence | simpl; lia].
      * simpl. rewrite length_app. lia.
  - contradiction.
  - destruct (IH1 Hb _ L _ _ E) as (st1 & M1 & E1 & P1).
    exists (capture n st st1). repeat split; auto. constructor. exact M1.
Qed.

Lemma skipn_split {A} (l : list A) i :
  i <= List.length l ->
  exists pre, l = pre ++ skipn i l /\ List.length pre = i.
Proof.
  intros H. exists (firstn i l). split.
  - symmetry. apply firstn_skipn.
  - rewrite length_firstn. lia.
Qed.

(** A pattern without [^] is found in a text exactly when a piece of the
    text is one of its words. *)
Lemma found_lang r text :
  bol_free r = true ->
  (found r text = true <-> exists w, lang r w /\ infix w text).
Proof.
  intros Hb. rewrite found_iff. unfold occurs, infix. split.
  - intros (i & st' & Hi & Hm).
    apply matches_lang in Hm; [| exact Hb].
    destruct Hm as (w & L & E & _). simpl in E.
    destruct (skipn_split text i Hi) as (pre & Et & _).
    exists w. split; [exact L |]. exists pre, (rest st').
    rewrite <- E. exact Et.
  - intros (w & L & pre & post & ->).
    destruct (lang_matches r Hb w L (MState (List.length pre) (w ++ post) []) post eq_refl)
      as (st' & Hm & _).
    exists (List.length pre), st'. split.
    + rewrite length_app. lia.
    + unfold at_offset. rewrite skipn_app, Nat.sub_diag, skipn_all. exact Hm.
Qed.

End Matcher.

(** ** Stripping and splitting *)

Section Strings.

Lemma lstrip_nil_iff s : lstrip s = [] <-> blank s = true.
Proof.
  unfold blank. induction s as [| c s IH]; simpl; [tauto |].
  destruct (isspace c); simpl; [exact IH |]. split; discriminate.
Qed.

Lemma lstrip_head s c r : lstrip s = c :: r -> isspace c = false.
Proof.
  induction s as [| d s IH]; simpl; [discriminate |].
  destruct (isspace d) eqn:E; [exact IH |].
  intros H. injection H as -> _. exact E.
Qed.

Lemma lstrip_suffix s : exists pre, s = pre ++ lstrip s /\ blank pre = true.
Proof.
  induction s as [| c s (pre & E & B)]; simpl.
  - exists []. auto.
  - destruct (isspace c) eqn:Ec.
    + exists (c :: pre). simpl. unfold blank in *. simpl.
      rewrite Ec, B. split; [congruence | reflexivity].
    + exists []. auto.
Qed.

Lemma blank_app a b : blank (a ++ b) = blank a && blank b.
Proof. apply forallb_app. Qed.

Lemma blank_rev s : blank (rev s) = blank s.
Proof.
  unfold blank. induction s as [| c s IH]; simpl; [reflexivity |].
  rewrite forallb_app, IH. simpl. rewrite andb_true_r. apply andb_comm.
Qed.

(** [strip] leaves nothing exactly of the blank texts. *)
Lemma strip_nil_iff s : strip s = [] <-> blank s = true.
Proof.
  unfold strip, rstrip.
  destruct (lstrip_suffix s) as (pre & E & B).
  split.
  - intros H. apply (f_equal (@rev ascii)) in H. rewrite rev_involutive in H.
    simpl in H. apply lstrip_nil_iff in H. rewrite blank_rev in H.
    rewrite E, blank_app, B, H. reflexivity.
  - intros H. rewrite E, blank_app, B in H. simpl in H.
    rewrite <- blank_rev in H. apply lstrip_nil_iff in H. rewrite H. reflexivity.
Qed.

Lemma lstrip_keeps_last l c :
  isspace c = false -> exists v, lstrip (l ++ [c]) = v ++ [c].
Proof.
  intros Hc. induction l as [| d l (v & IH)]; simpl.
  - rewrite Hc. exists []. reflexivity.
  - destruct (isspace d).
    + exists v. exact IH.
    + exists (d :: l). reflexivity.
Qed.

(** A stripped text does not begin with white space. *)
Lemma strip_head s c r : strip s = c :: r -> isspace c = false.
Proof.
  unfold strip, rstrip. intros H.
  destruct (lstrip s) as [| d u] eqn:E; [discriminate |].
  pose proof (lstrip_head _ _ _ E) as Hd.
  simpl in H. destruct (lstrip_keeps_last (rev u) d Hd) as (v & Ev).
  rewrite Ev, rev_app_distr in H. simpl in H.
  injection H as <- _. exact Hd.
Qed.

Lemma islinebreak_isspace c : islinebreak c = true -> isspace c = true.
Proof.
  unfold islinebreak, isspace, in_range. 
  intros H.
  repeat match goal with
         | |- context [?a <=? ?b] => destruct (Nat.leb_spec a b)
         | |- context [?a =? ?b] => destruct (Nat.eqb_spec a b)
         | H : context [?a <=? ?b] |- _ => destruct (Nat.leb_spec a b)
         | H : context [?a =? ?b] |- _ => destruct (Nat.eqb_spec a b)
         end; simpl in *; try reflexivity; try discriminate; lia.
Qed.

Lemma isCR_islinebreak c : isCR c = true -> islinebreak c = true.
Proof.
  unfold isCR, islinebreak, in_range. intros H. apply Nat.eqb_eq in H.
  rewrite H. reflexivity.
Qed.

Lemma isLF_isspace c : isLF c = true -> isspace c = true.
Proof.
  unfold isLF, isspace, in_range. intros H. apply Nat.eqb_eq in H.
  rewrite H. reflexivity.
Qed.

Lemma blank_cons c s : blank (c :: s) = isspace c && blank s.
Proof. reflexivity. Qed.

(** A text that is not blank has a line that is not blank. *)
Lemma splitlines_from_not_blank s :
  forall cur, blank (cur ++ s) = false ->
  exists ln, In ln (splitlines_from cur s) /\ blank ln = false.
Proof.
  remember (List.length s) as n eqn:En. revert s En.
  induction n as [n IHn] using lt_wf_ind. intros s En.
  assert (IH : forall t, List.length t < List.length s ->
               forall cur, blank (cur ++ t) = false ->
               exists ln, In ln (splitlines_from cur t) /\ blank ln = false).
  { intros t Ht. apply (IHn (List.length t)); [lia | reflexivity]. }
  clear IHn En n.
  intros cur H. destruct s as [| c t].
  - rewrite app_nil_r in H. simpl.
    destruct cur as [| x cur']; [discriminate |].
    exists (rev (x :: cur')). split; [left; reflexivity |].
    rewrite blank_rev. exact H.
  - rewrite blank_app, blank_cons in H.
    assert (Hline : forall t',
              List.length t' < List.length (c :: t) ->
              blank cur && blank t' = false ->
              exists ln, In ln (rev cur :: splitlines_from [] t')
                         /\ blank ln = false).
    { intros t' Hlen Hb.
      destruct (blank cur) eqn:Ecur.
      - destruct (IH t' Hlen [] Hb) as (ln & Hin & Hln).
        exists ln. split; [right; exact Hin | exact Hln].
      - exists (rev cur). split; [left; reflexivity |].
        rewrite blank_rev. exact Ecur. }
    simpl splitlines_from.
    destruct (isCR c) eqn:Ecr.
    + pose proof (islinebreak_isspace _ (isCR_islinebreak _ Ecr)) as Hc.
      rewrite Hc in H. simpl in H.
      destruct t as [| d t'].
      * apply Hline; [simpl; lia | exact H].
      * destruct (isLF d) eqn:Elf.
        -- apply Hline; [simpl; lia |].
           rewrite blank_cons, (isLF_isspace _ Elf) in H. exact H.
        -- apply Hline; [simpl; lia | exact H].
    + destruct (islinebreak c) eqn:Elb.
      * rewrite (islinebreak_isspace _ Elb) in H.
        apply Hline; [simpl; lia | exact H].
      * apply IH; [simpl; lia |].
        change ((c :: cur) ++ t) with (c :: (cur ++ t)).
        rewrite blank_cons, blank_app.
        destruct (isspace c), (blank cur), (blank t); simpl in *; congruence.
Qed.

Lemma lines_of_spec text ln :
  In ln (lines_of text) <->
  exists l0, In l0 (splitlines text) /\ blank l0 = false /\ ln = strip l0.
Proof.
  unfold lines_of. rewrite in_map_iff. split.
  - intros (l0 & <- & Hin). apply filter_In in Hin. destruct Hin as [Hin Hne].
    exists l0. repeat split; auto.
    destruct (blank l0) eqn:E; [| reflexivity].
    apply strip_nil_iff in E. rewrite E in Hne. discriminate.
  - intros (l0 & Hin & Hb & ->). exists l0. split; [reflexivity |].
    apply filter_In. split; [exact Hin |].
    destruct (strip l0) eqn:E; [| reflexivity].
    apply strip_nil_iff in E. congruence.
Qed.

(** Every line kept is non-empty and begins with a character that is not
    white space. *)
Lemma lines_of_head text ln :
  In ln (lines_of text) -> exists c r, ln = c :: r /\ isspace c = false.
Proof.
  intros H. apply lines_of_spec in H. destruct H as (l0 & _ & Hb & ->).
  destruct (strip l0) as [| c r] eqn:E.
  - apply strip_nil_iff in E. congruence.
  - exists c, r. split; [reflexivity |]. eapply strip_head. exact E.
Qed.

(** A text that is not blank has at least one line. *)
Lemma lines_of_nonempty text : blank text = false -> lines_of text <> [].
Proof.
  intros H. destruct (splitlines_from_not_blank text [] H) as (ln & Hin & Hb).
  assert (Hl : In (strip ln) (lines_of text)).
  { apply lines_of_spec. exists ln. auto. }
  intros E. rewrite E in Hl. exact Hl.
Qed.

Lemma strip_not_blank s : blank s = false -> blank (strip s) = false.
Proof.
  intros H. destruct (strip s) as [| c r] eqn:E.
  - apply strip_nil_iff in E. congruence.
  - apply strip_head in E. unfold blank. simpl. rewrite E. reflexivity.
Qed.

End Strings.

(** ** Groups that every match sets *)

Section Groups.

Lemma matches_keeps_group n r st st' :
  matches r st st' -> assoc n (caps st) <> None -> assoc n (caps st') <> None.
Proof.
  induction 1; intros Hn; auto.
  simpl. destruct (n0 =? n); [discriminate | auto].
Qed.

Lemma matches_captures n r st st' :
  captures n r = true -> matches r st st' -> assoc n (caps st') <> None.
Proof.
  intros Hc Hm. induction Hm; simpl in Hc; try discriminate.
  - apply orb_prop in Hc. destruct Hc as [Hc | Hc].
    + eapply matches_keeps_group; [exact Hm2 | auto].
    + auto.
  - apply andb_prop in Hc. destruct Hc as [Hc _]. auto.
  - apply andb_prop in Hc. destruct Hc as [_ Hc]. auto.
  - simpl. destruct (n0 =? n) eqn:E; [discriminate |].
    simpl in Hc. auto.
Qed.

(** A pattern with a mandatory group 1 always yields [m.group(1)]. *)
Lemma search_group1 r text m :
  captures 1 r = true -> search r text = Some m ->
  exists g, group1 m = Return g /\ group 1 m = Some g.
Proof.
  intros Hc Hs. apply search_leftmost in Hs.
  destruct Hs as (st' & _ & Hm & _ & Hcaps & _).
  apply (matches_captures 1) in Hm; [| exact Hc].
  unfold group1, group. rewrite Hcaps.
  destruct (assoc 1 (caps st')) as [g |]; [| congruence].
  exists g. auto.
Qed.

Lemma find_amount_returns text :
  exists a, find_amount amount_patterns text = Return a.
Proof.
  unfold amount_patterns, find_amount.
  destruct (search symbol_amount text) as [m |] eqn:E1.
  - destruct (search_group1 symbol_amount text m eq_refl E1) as (g & -> & _).
    cbn [bind]. destruct (float_of_str (replace "," [] g)); [eauto |].
    destruct (search bare_amount text) as [m2 |] eqn:E2; [| eauto].
    destruct (search_group1 bare_amount text m2 eq_refl E2) as (g2 & -> & _).
    cbn [bind]. destruct (float_of_str (replace "," [] g2)); eauto.
  - destruct (search bare_amount text) as [m2 |] eqn:E2; [| eauto].
    destruct (search_group1 bare_amount text m2 eq_refl E2) as (g2 & -> & _).
    cbn [bind]. destruct (float_of_str (replace "," [] g2)); eauto.
Qed.

Lemma find_date_returns_from pats text :
  Forall (fun r => captures 1 r = true) pats ->
  exists d, find_date pats text = Return d.
Proof.
  induction 1 as [| r pats Hr _ IH]; cbn [find_date]; [eauto |].
  destruct (search r text) as [m |] eqn:E; [| exact IH].
  destruct (search_group1 r text m Hr E) as (g & -> & _). cbn [bind].
  destruct (try_formats date_formats g); [eauto | exact IH].
Qed.

Lemma find_date_returns text :
  exists d, find_date date_patterns text = Return d.
Proof.
  apply find_date_returns_from. repeat constructor.
Qed.

End Groups.

(** ** The first piece of a split *)

Section Split.

Lemma startswith_iff sep s : startswith sep s = true <-> exists q, s = sep ++ q.
Proof.
  revert s. induction sep as [| x sep IH]; intros s; simpl.
  - split; eauto.
  - destruct s as [| y s].
    + split; [discriminate | intros (q & H); discriminate].
    + unfold eqc. destruct (Ascii.eqb_spec x y) as [-> | Hne]; simpl.
      * rewrite IH. split; intros (q & H); exists q; congruence.
      * split; [discriminate | intros (q & H); congruence].
Qed.

Lemma split_from_first sep :
  sep <> [] ->
  forall s cur,
    (exists p rest, first_at sep s p
                    /\ split_from sep 0 cur s = (rev cur ++ p) :: rest)
    \/ (absent sep s /\ split_from sep 0 cur s = [rev cur ++ s]).
Proof.
  intros Hsep. induction s as [| c t IH]; intros cur.
  - right. split.
    + intros p q H. symmetry in H. apply app_eq_nil in H. destruct H as [_ H].
      apply app_eq_nil in H. destruct H as [H _]. contradiction.
    + simpl. rewrite app_nil_r. reflexivity.
  - simpl. destruct (startswith sep (c :: t)) eqn:E.
    + left. exists [], (split_from sep (List.length sep - 1) [] t).
      split; [| rewrite app_nil_r; reflexivity].
      split; [apply startswith_iff in E; exact E | simpl; intros; lia].
    + assert (Hno : forall q, c :: t <> sep ++ q).
      { intros q H. assert (startswith sep (c :: t) = true)
          by (apply startswith_iff; eauto). congruence. }
      destruct (IH (c :: cur)) as [(p & rest & [(q & Hq) Hmin] & Hs) | [Habs Hs]].
      * left. exists (c :: p), rest. split.
        -- split; [exists q; simpl; congruence |].
           intros [| c' p'] q' H'; [exfalso; exact (Hno q' H') |].
           simpl in H'. injection H' as _ H'. simpl.
           specialize (Hmin p' q' H'). lia.
        -- rewrite Hs. simpl. rewrite <- app_assoc. reflexivity.
      * right. split.
        -- intros [| c' p'] q' H'; [exact (Hno q' H') |].
           simpl in H'. injection H' as _ H'. exact (Habs p' q' H').
        -- rewrite Hs. simpl. rewrite <- app_assoc. reflexivity.
Qed.

(** [s.split(sep)[0]] is the text before the first [sep], or all of [s]
    when [sep] does not occur. *)
Lemma split_first sep s :
  sep <> [] ->
  exists p, first (split sep s) = Return p
            /\ before_first sep s p.
Proof.
  intros Hsep. unfold split, before_first.
  destruct (split_from_first sep Hsep s []) as [(p & rest & Hf & ->) | [Ha ->]].
  - exists p. simpl. auto.
  - exists s. simpl. auto.
Qed.

Lemma filter_first {A} (f : A -> bool) (l : list A) :
  (exists pre x post, l = pre ++ x :: post
                      /\ (forall y, In y pre -> f y = false)
                      /\ f x = true
                      /\ List.filter f l = x :: List.filter f post)
  \/ (List.filter f l = [] /\ forall y, In y l -> f y = false).
Proof.
  induction l as [| a l IH]; simpl.
  - right. split; [reflexivity | contradiction].
  - destruct (f a) eqn:E.
    + left. exists [], a, l. simpl. repeat split; auto. contradiction.
    + destruct IH as [(pre & x & post & -> & Hpre & Hx & Hf) | [Hf Hall]].
      * left. exists (a :: pre), x, post. repeat split; auto.
        intros y [<- | Hy]; auto.
      * right. split; [exact Hf |]. intros y [<- | Hy]; auto.
Qed.

End Split.

(** ** The outcome on a text that is not blank *)

Section Accepted.

Lemma first_cons {A} (l : list A) :
  l <> [] -> exists x rest, l = x :: rest /\ first l = Return x.
Proof. destruct l as [| x rest]; [congruence | eauto]. Qed.

Lemma before_first_dash d p c r :
  d = c :: r -> isspace c = false -> before_first (lit " - ") d p -> p <> [].
Proof.
  intros -> Hc [[(q & Hq) _] | [_ ->]]; [| discriminate].
  intros ->. simpl in Hq. injection Hq as -> _. discriminate Hc.
Qed.

(** The description is the line chosen and the merchant its part before
    the first " - ", cut to 80 characters; neither is empty. *)
Lemma describe_returns text :
  blank text = false ->
  exists d p,
    describe text = Return (Some d, Some (firstn 80 p))
    /\ In d (lines_of text)
    /\ chosen (lines_of text) d
    /\ before_first (lit " - ") d p
    /\ d <> [] /\ p <> [].
Proof.
  intros Hb. pose proof (lines_of_nonempty text Hb) as Hne.
  unfold describe.
  destruct (lines_of text) as [| l0 ls] eqn:El; [congruence |].
  cbn [nonempty].
  assert (Hd : exists d,
    (if nonempty (candidates_of (l0 :: ls)) then first (candidates_of (l0 :: ls))
     else first (l0 :: ls)) = Return d
    /\ In d (l0 :: ls) /\ chosen (l0 :: ls) d).
  { unfold candidates_of.
    destruct (filter_first kept (l0 :: ls))
      as [(pre & x & post & E & Hpre & Hx & Hf) | [Hf Hall]].
    - change (fun ln => negb (found date_like ln) && negb (found money_words ln))
        with kept.
      rewrite Hf. cbn [nonempty first]. exists x. split; [reflexivity |].
      split.
      + rewrite E. apply in_or_app. right. left. reflexivity.
      + left. exists pre, post. auto.
    - change (fun ln => negb (found date_like ln) && negb (found money_words ln))
        with kept.
      rewrite Hf. cbn [nonempty first]. exists l0. split; [reflexivity |].
      split; [left; reflexivity |]. right. split; [exact Hall | eauto]. }
  destruct Hd as (d & -> & Hin & Hch). cbn [bind].
  destruct (split_first (lit " - ") d ltac:(discriminate)) as (p & -> & Hp).
  cbn [bind]. exists d, p.
  assert (Hhead : exists c r, d = c :: r /\ isspace c = false).
  { apply (lines_of_head text). rewrite El. exact Hin. }
  destruct Hhead as (c & r & Ed & Hc).
  repeat split; auto.
  - rewrite Ed. discriminate.
  - eapply before_first_dash; eauto.
Qed.

Lemma blank_strip text : blank (strip text) = blank text.
Proof.
  destruct (blank text) eqn:E.
  - apply strip_nil_iff in E. rewrite E. reflexivity.
  - apply strip_not_blank. exact E.
Qed.

Lemma firstn_nonempty {A} n (l : list A) : l <> [] -> firstn (S n) l <> [].
Proof. destruct l; [congruence | discriminate]. Qed.

(** What [parse_text] returns on a text that is not blank. *)
Lemma parse_text_accepted now text :
  blank text = false ->
  exists a dt d p,
    find_amount amount_patterns (strip text) = Return a
    /\ find_date date_patterns (strip text) = Return dt
    /\ In d (lines_of (strip text))
    /\ chosen (lines_of (strip text)) d
    /\ before_first (lit " - ") d p
    /\ d <> [] /\ p <> []
    /\ parse_text now text
       = Return (Result (isoformat (match dt with Some x => x | None => now end))
                        (match a with Some x => x | None => zero end)
                        (infer_direction (strip text))
                        d (Some (firstn 80 p))).
Proof.
  intros Hb. unfold parse_text. cbv zeta.
  assert (Hne : nonempty (strip text) = true).
  { destruct (strip text) eqn:Es; [| reflexivity].
    apply strip_nil_iff in Es. congruence. }
  rewrite Hne. cbn [negb].
  destruct (find_amount_returns (strip text)) as (a & Ha).
  destruct (find_date_returns (strip text)) as (dt & Hdt).
  assert (Hbs : blank (strip text) = false) by (rewrite blank_strip; exact Hb).
  destruct (describe_returns (strip text) Hbs)
    as (d & p & Hd & Hin & Hch & Hp & Hdne & Hpne).
  exists a, dt, d, p. rewrite Ha, Hdt, Hd. cbn [bind].
  repeat split; auto.
  destruct d as [| x d']; [congruence |].
  destruct p as [| y p']; [congruence |].
  reflexivity.
Qed.

End Accepted.

(** ** The float of a money literal *)

Section Magnitude.

Lemma shr_1_nonneg mrs : (0 <= shr_m mrs)%Z -> (0 <= shr_m (shr_1 mrs))%Z.
Proof.
  destruct mrs as [m r s]. simpl.
  destruct m as [| [p | p |] | [p | p |]]; simpl; lia.
Qed.

Lemma iter_pos_shr_1_nonneg n mrs :
  (0 <= shr_m mrs)%Z -> (0 <= shr_m (iter_pos shr_1 n mrs))%Z.
Proof.
  revert mrs. induction n as [n IH | n IH |]; intros mrs H; simpl.
  - apply IH, IH, shr_1_nonneg, H.
  - apply IH, IH, H.
  - apply shr_1_nonneg, H.
Qed.

Lemma shr_fexp_nonneg m e l :
  (0 <= m)%Z -> (0 <= shr_m (fst (shr_fexp prec emax m e l)))%Z.
Proof.
  intros H. unfold shr_fexp, shr.
  assert (H0 : (0 <= shr_m (shr_record_of_loc m l))%Z)
    by (destruct l as [| []]; exact H).
  destruct (fexp prec emax (Zdigits2 m + e) - e)%Z; simpl; auto.
  apply iter_pos_shr_1_nonneg, H0.
Qed.

Lemma round_nearest_even_nonneg m l :
  (0 <= m)%Z -> (0 <= round_nearest_even m l)%Z.
Proof.
  intros H. destruct l as [| []]; simpl; try lia.
  destruct (Z.even m); lia.
Qed.

Lemma binary_round_aux_magnitude m e l :
  (0 <= m)%Z -> is_magnitude (binary_round_aux prec emax false m e l) = true.
Proof.
  intros H. unfold binary_round_aux.
  pose proof (shr_fexp_nonneg m e l H) as H1.
  destruct (shr_fexp prec emax m e l) as [mrs' e'].
  simpl in H1.
  pose proof (shr_fexp_nonneg _ e' loc_Exact
                (round_nearest_even_nonneg (shr_m mrs') (loc_of_shr_record mrs') H1))
    as H2.
  destruct (shr_fexp prec emax
              (round_nearest_even (shr_m mrs') (loc_of_shr_record mrs')) e'
              loc_Exact) as [mrs'' e''].
  simpl in H2. destruct (shr_m mrs'') as [| p | p]; [reflexivity | | lia].
  destruct (e'' <=? emax - prec)%Z; reflexivity.
Qed.

(** The float of a fraction is a number and is not below zero. *)
Lemma float_of_fraction_magnitude n d :
  is_magnitude (float_of_fraction n d) = true.
Proof.
  unfold float_of_fraction. destruct (N.of_nat n) as [| p]; [reflexivity |].
  unfold float_of_ratio, SFdiv_core_binary.
  set (e' := Z.min _ _). set (s := (0 - 0 - e')%Z).
  set (m' := match s with Z0 => Zpos p | Zpos _ => Z.shiftl (Zpos p) s
                          | Zneg _ => 0%Z end).
  assert (Hm : (0 <= m')%Z).
  { subst m'. destruct s; try lia. apply Z.shiftl_nonneg. lia. }
  pose proof (Z.div_pos m' (Zpos d) Hm ltac:(lia)) as Hq.
  unfold Z.div in Hq. destruct (Z.div_eucl m' (Zpos d)) as [q r].
  apply binary_round_aux_magnitude. exact Hq.
Qed.

Lemma magnitude_fabs x : is_magnitude x = true -> fabs x = x.
Proof.
  destruct x as [[] | [] | | [] m e]; simpl; intros H;
    try discriminate H; reflexivity.
Qed.

Lemma magnitude_nonneg x : is_magnitude x = true -> nonneg x = true.
Proof.
  destruct x as [[] | [] | | [] m e]; simpl; intros H;
    try discriminate H; reflexivity.
Qed.

End Magnitude.

Section Literal.

Lemma replace_comma s :
  replace "," [] s = List.filter (fun c => negb (eqc c ",")) s.
Proof.
  unfold replace. induction s as [| c s IH]; simpl; [reflexivity |].
  destruct (eqc c ","); simpl; rewrite IH; reflexivity.
Qed.

Lemma isdigit_not_comma c : isdigit c = true -> eqc c "," = false.
Proof.
  unfold eqc. destruct (Ascii.eqb_spec c ","%char) as [-> |]; [| reflexivity].
  discriminate.
Qed.

Lemma digits_app a b : digits (a ++ b) <-> digits a /\ digits b.
Proof.
  unfold digits. rewrite forallb_app. split.
  - intros H. apply andb_prop in H. exact H.
  - intros [-> ->]. reflexivity.
Qed.

Lemma filter_digits_id s : digits s -> List.filter isdigit s = s.
Proof.
  unfold digits. induction s as [| c s IH]; simpl; [reflexivity |].
  intros H. apply andb_prop in H. destruct H as [Hc Hs].
  rewrite Hc, (IH Hs). reflexivity.
Qed.

Lemma strip_commas_digits s : digits s -> replace "," [] s = s.
Proof.
  rewrite replace_comma. unfold digits.
  induction s as [| c s IH]; simpl; [reflexivity |].
  intros H. apply andb_prop in H. destruct H as [Hc Hs].
  rewrite (isdigit_not_comma c Hc), (IH Hs). reflexivity.
Qed.

Lemma integer_part_digits ip : digits ip -> ip <> [] -> integer_part ip.
Proof.
  intros Hd Hne. unfold integer_part.
  rewrite (strip_commas_digits ip Hd), (filter_digits_id ip Hd). auto.
Qed.

Lemma filter_app_l {A} (f : A -> bool) a b :
  List.filter f (a ++ b) = List.filter f a ++ List.filter f b.
Proof. apply filter_app. Qed.

Lemma filter_not_comma_digits s :
  digits s -> List.filter (fun c => negb (eqc c ",")) s = s.
Proof. intros H. rewrite <- replace_comma. apply strip_commas_digits, H. Qed.

Lemma integer_part_grouped ip : thousands_grouped ip -> integer_part ip.
Proof.
  intros (h & gs & -> & Hh & Hl & Hgs). unfold integer_part.
  rewrite replace_comma.
  assert (G : List.filter (fun c => negb (eqc c ",")) (List.concat gs)
              = List.filter isdigit (List.concat gs)
              /\ digits (List.filter isdigit (List.concat gs))).
  { induction Hgs as [| x gs (g & -> & Hg & _) _ [IH1 IH2]];
      [split; reflexivity |].
    change (List.concat (("," :: g)%char :: gs))
      with ((","%char :: g) ++ List.concat gs).
    rewrite !filter_app_l, IH1.
    change (List.filter (fun c => negb (eqc c ",")) (","%char :: g))
      with (List.filter (fun c => negb (eqc c ",")) g).
    change (List.filter isdigit (","%char :: g)) with (List.filter isdigit g).
    rewrite (filter_not_comma_digits g Hg), (filter_digits_id g Hg).
    split; [reflexivity |]. apply digits_app. auto. }
  destruct G as [G1 G2].
  rewrite !filter_app_l, G1.
  rewrite (filter_not_comma_digits h Hh), (filter_digits_id h Hh).
  split; [reflexivity |]. split; [apply digits_app; auto |].
  destruct h; [simpl in Hl; lia | discriminate].
Qed.

Lemma span_digits ds r :
  digits ds -> (forall c r', r = c :: r' -> isdigit c = false) ->
  span isdigit (ds ++ r) = (ds, r).
Proof.
  unfold digits, span. intros Hd Hr.
  induction ds as [| c ds IH]; simpl.
  - destruct r as [| c r']; [reflexivity |]. rewrite (Hr c r' eq_refl). reflexivity.
  - simpl in Hd. apply andb_prop in Hd. destruct Hd as [Hc Hd].
    rewrite Hc, (IH Hd). reflexivity.
Qed.

(** [float] converts every money literal, separators stripped, to the float
    of its value. *)
Lemma float_of_money_literal g :
  money_literal g ->
  float_of_str (replace "," [] g) = Some (amount_of_literal g).
Proof.
  intros (ip & fp & -> & Hfp & Hlen & Hip).
  assert (I : integer_part ip).
  { destruct Hip as [H | [H1 H2]];
      [apply integer_part_grouped | apply integer_part_digits]; auto. }
  destruct I as (I1 & I2 & I3).
  assert (E : replace "," [] (ip ++ "."%char :: fp)
              = List.filter isdigit ip ++ "."%char :: fp).
  { rewrite replace_comma, filter_app_l, <- replace_comma, I1. simpl.
    rewrite <- replace_comma, (strip_commas_digits fp Hfp). reflexivity. }
  rewrite E. unfold float_of_str.
  rewrite (span_digits (List.filter isdigit ip) ("."%char :: fp) I2)
    by (intros c r' H; injection H as <- _; reflexivity).
  destruct (List.filter isdigit ip) as [| d ds] eqn:Ed; [congruence |].
  unfold digits in Hfp. rewrite Hfp, Hlen. simpl andb. cbv iota.
  unfold amount_of_literal, cents.
  rewrite filter_app_l, Ed.
  change (List.filter isdigit ("."%char :: fp)) with (List.filter isdigit fp).
  rewrite (filter_digits_id fp Hfp). reflexivity.
Qed.

End Literal.

(** ** The words of the patterns *)

Section Words.

Lemma lang_chr_exact c w : lang (chr false c) w <-> w = [c].
Proof.
  simpl. unfold eqc. split.
  - intros (x & -> & H). apply Ascii.eqb_eq in H. congruence.
  - intros ->. exists c. split; [reflexivity | apply Ascii.eqb_refl].
Qed.

Lemma lang_chr_icase c w :
  lang (chr true c) w <-> exists x, w = [x] /\ lower x = lower c.
Proof.
  simpl. unfold eqc. split; intros (x & -> & H); exists x;
    (split; [reflexivity | apply Ascii.eqb_eq; exact H]).
Qed.

Lemma lang_times p n w :
  lang (times n (Chr p)) w <-> List.length w = n /\ forallb p w = true.
Proof.
  revert w. induction n as [| n IH]; intros w.
  - simpl. split.
    + intros ->. auto.
    + intros [H _]. destruct w; [reflexivity | discriminate].
  - destruct n as [| n'].
    + simpl. split.
      * intros (c & -> & H). simpl. rewrite H. auto.
      * intros [Hl Hp]. destruct w as [| c [| d w]]; try discriminate.
        simpl in Hp. rewrite andb_true_r in Hp. eauto.
    + change (times (S (S n')) (Chr p)) with (Seq (Chr p) (times (S n') (Chr p))).
      cbn [lang]. split.
      * intros (w1 & w2 & -> & (c & -> & Hc) & H2). apply IH in H2.
        destruct H2 as [Hl Hp]. simpl. rewrite Hc, Hp, Hl. auto.
      * intros [Hl Hp]. destruct w as [| c w]; [discriminate |].
        simpl in Hl, Hp. apply andb_prop in Hp. destruct Hp as [Hc Hp].
        exists [c], w. split; [reflexivity |]. split; [eauto |].
        apply IH. split; [lia | exact Hp].
Qed.

Lemma lang_upto p n w :
  lang (upto n (Chr p)) w <-> List.length w <= n /\ forallb p w = true.
Proof.
  revert w. induction n as [| n IH]; intros w.
  - simpl. split.
    + intros ->. auto.
    + intros [H _]. destruct w; [reflexivity | simpl in H; lia].
  - change (upto (S n) (Chr p)) with (Alt (Seq (Chr p) (upto n (Chr p))) Eps).
    cbn [lang]. split.
    + intros [(w1 & w2 & -> & (c & -> & Hc) & H2) | ->].
      * apply IH in H2. destruct H2 as [Hl Hp]. simpl. rewrite Hc, Hp.
        split; [lia | reflexivity].
      * simpl. split; [lia | reflexivity].
    + intros [Hl Hp]. destruct w as [| c w]; [right; reflexivity |].
      left. simpl in Hl, Hp. apply andb_prop in Hp. destruct Hp as [Hc Hp].
      exists [c], w. split; [reflexivity |]. split; [eauto |].
      apply IH. split; [lia | exact Hp].
Qed.

Lemma lang_between p n m w :
  n <= m ->
  (lang (between n m (Chr p)) w
   <-> n <= List.length w <= m /\ forallb p w = true).
Proof.
  intros Hnm. unfold between. cbn [lang]. split.
  - intros (w1 & w2 & -> & H1 & H2).
    apply lang_times in H1. apply lang_upto in H2.
    destruct H1 as [L1 P1], H2 as [L2 P2].
    rewrite length_app, forallb_app, P1, P2. split; [lia | reflexivity].
  - intros [Hl Hp]. exists (firstn n w), (skipn n w).
    rewrite <- (firstn_skipn n w) in Hp. rewrite forallb_app in Hp.
    apply andb_prop in Hp. destruct Hp as [P1 P2].
    split; [symmetry; apply firstn_skipn |]. split.
    + apply lang_times. rewrite length_firstn. split; [lia | exact P1].
    + apply lang_upto. rewrite length_skipn. split; [lia | exact P2].
Qed.

Lemma lang_star_chr p w : lang (Star (Chr p)) w <-> forallb p w = true.
Proof.
  cbn [lang]. split.
  - intros (ws & -> & H). induction H as [| x ws [_ (c & -> & Hc)] _ IH].
    + reflexivity.
    + simpl. rewrite Hc, IH. reflexivity.
  - intros H. exists (map (fun c => [c]) w). split.
    + induction w as [| c w IH]; [reflexivity |]. simpl in *.
      apply andb_prop in H. rewrite <- IH; tauto.
    + induction w as [| c w IH]; simpl; constructor.
      * simpl in H. apply andb_prop in H. split; [discriminate | ]. exists c. tauto.
      * simpl in H. apply andb_prop in H. apply IH. tauto.
Qed.

Lemma lang_plus_chr p w :
  lang (plus (Chr p)) w <-> w <> [] /\ forallb p w = true.
Proof.
  unfold plus. change (lang (Seq (Chr p) (Star (Chr p))) w)
    with (exists w1 w2, w = w1 ++ w2 /\ lang (Chr p) w1 /\ lang (Star (Chr p)) w2).
  split.
  - intros (w1 & w2 & -> & (c & -> & Hc) & H2). apply lang_star_chr in H2.
    simpl. rewrite Hc, H2. split; [discriminate | reflexivity].
  - intros [Hne Hp]. destruct w as [| c w]; [congruence |].
    simpl in Hp. apply andb_prop in Hp. destruct Hp as [Hc Hp].
    exists [c], w. split; [reflexivity |]. split; [simpl; eauto |].
    apply lang_star_chr. exact Hp.
Qed.

Lemma lang_word_icase kw w :
  lang (word true kw) w <-> same_letters w kw.
Proof.
  unfold same_letters. revert w. induction kw as [| c kw IH]; intros w.
  - simpl. split; [intros ->; reflexivity |].
    destruct w; [reflexivity | discriminate].
  - destruct kw as [| c' kw'].
    + change (word true [c]) with (chr true c). rewrite lang_chr_icase. split.
      * intros (x & -> & H). simpl. congruence.
      * destruct w as [| x [| y w]]; try discriminate.
        simpl. intros H. injection H as H. eauto.
    + change (word true (c :: c' :: kw'))
        with (Seq (chr true c) (word true (c' :: kw'))).
      change (lang (Seq (chr true c) (word true (c' :: kw'))) w)
        with (exists w1 w2, w = w1 ++ w2 /\ lang (chr true c) w1
                            /\ lang (word true (c' :: kw')) w2).
      split.
      * intros (w1 & w2 & -> & H1 & H2). apply lang_chr_icase in H1.
        destruct H1 as (x & -> & Hx). apply IH in H2. simpl in *. congruence.
      * destruct w as [| x w]; [discriminate |]. intros H.
        change (lower x :: map lower w = lower c :: map lower (c' :: kw')) in H.
        injection H as Hx Hw.
        exists [x], w. split; [reflexivity |]. split.
        -- apply lang_chr_icase. eauto.
        -- apply IH. exact Hw.
Qed.

Lemma lang_alts rs w : lang (alts rs) w <-> exists r, In r rs /\ lang r w.
Proof.
  induction rs as [| r rs IH].
  - simpl. split; [intros (c & _ & H); discriminate | intros (r & [] & _)].
  - destruct rs as [| r' rs'].
    + simpl. split; [eauto | intros (x & [<- | []] & H); exact H].
    + change (alts (r :: r' :: rs')) with (Alt r (alts (r' :: rs'))).
      cbn [lang]. rewrite IH. split.
      * intros [H | (x & Hin & H)]; [exists r; simpl; auto |].
        exists x. split; [right; exact Hin | exact H].
      * intros (x & [<- | Hin] & H); [left; exact H | right; eauto].
Qed.

End Words.

(** ** The number pattern and the group it fills *)

Section Number.

Lemma lang_decimals w :
  lang (Seq (chr false ".") (times 2 digit)) w
  <-> exists fp, w = "."%char :: fp /\ digits fp /\ List.length fp = 2.
Proof.
  cbn [lang]. unfold digit, digits. split.
  - intros (a & b & -> & Ha & Hb). apply lang_chr_exact in Ha. subst a.
    apply lang_times in Hb. exists b. simpl. tauto.
  - intros (fp & -> & Hd & Hl). exists ["."%char], fp.
    split; [reflexivity |]. split; [apply lang_chr_exact; reflexivity |].
    apply lang_times. tauto.
Qed.

Lemma lang_comma_group x :
  lang (Seq (chr false ",") (times 3 digit)) x
  <-> exists g, x = ","%char :: g /\ digits g /\ List.length g = 3.
Proof.
  cbn [lang]. unfold digit, digits. split.
  - intros (a & b & -> & Ha & Hb). apply lang_chr_exact in Ha. subst a.
    apply lang_times in Hb. exists b. simpl. tauto.
  - intros (fp & -> & Hd & Hl). exists [","%char], fp.
    split; [reflexivity |]. split; [apply lang_chr_exact; reflexivity |].
    apply lang_times. tauto.
Qed.

(** The words of the number pattern are the money literals. *)
Lemma lang_number g : lang number g <-> money_literal g.
Proof.
  unfold number, money_literal. cbn [seqs].
  change (lang (Alt ?a ?b) g) with (lang a g \/ lang b g).
  split.
  - intros [H | H].
    + change (exists w1 w2, g = w1 ++ w2 /\ lang (between 1 3 digit) w1 /\
                exists w3 w4, w2 = w3 ++ w4
                  /\ lang (Star (Seq (chr false ",") (times 3 digit))) w3
                  /\ lang (Seq (chr false ".") (times 2 digit)) w4) in H.
      destruct H as (h & w2 & -> & Hh & w3 & w4 & -> & Hs & Hd).
      apply lang_between in Hh; [| lia]. apply lang_decimals in Hd.
      destruct Hd as (fp & -> & Hfp & Hl).
      destruct Hs as (gs & -> & Hgs).
      exists (h ++ List.concat gs), fp. rewrite <- app_assoc.
      split; [reflexivity |]. split; [exact Hfp |]. split; [exact Hl |].
      left. exists h, gs. split; [reflexivity |].
      split; [apply Hh |]. split; [apply Hh |].
      eapply Forall_impl; [| exact Hgs]. intros x [_ Hx].
      apply lang_comma_group. exact Hx.
    + change (exists w1 w2, g = w1 ++ w2 /\ lang (plus digit) w1
                /\ lang (Seq (chr false ".") (times 2 digit)) w2) in H.
      destruct H as (ip & w2 & -> & Hip & Hd).
      apply lang_plus_chr in Hip. apply lang_decimals in Hd.
      destruct Hd as (fp & -> & Hfp & Hl).
      exists ip, fp. split; [reflexivity |]. split; [exact Hfp |].
      split; [exact Hl |]. right. split; apply Hip.
  - intros (ip & fp & -> & Hfp & Hl & [(h & gs & -> & Hh & Hlh & Hgs) | [Hd Hne]]).
    + left. exists h, (List.concat gs ++ "."%char :: fp).
      split; [rewrite <- app_assoc; reflexivity |].
      split; [apply lang_between; [lia | split; [exact Hlh | exact Hh]] |].
      exists (List.concat gs), ("."%char :: fp). split; [reflexivity |]. split.
      * exists gs. split; [reflexivity |].
        eapply Forall_impl; [| exact Hgs]. intros x Hx. split.
        -- destruct Hx as (g' & -> & _). discriminate.
        -- apply lang_comma_group. exact Hx.
      * apply lang_decimals. eauto.
    + right. exists ip, ("."%char :: fp). split; [reflexivity |]. split.
      * apply lang_plus_chr. split; [exact Hne | exact Hd].
      * apply lang_decimals. eauto.
Qed.

Lemma matches_group_free r st st' :
  group_free r = true -> matches r st st' -> caps st' = caps st.
Proof.
  intros Hg Hm. induction Hm; simpl in Hg; try discriminate; auto.
  - apply andb_prop in Hg. destruct Hg as [H1 H2].
    rewrite (IHHm2 H2). auto.
  - apply andb_prop in Hg. destruct Hg as [H1 H2]. auto.
  - apply andb_prop in Hg. destruct Hg as [H1 H2]. auto.
  - rewrite (IHHm2 Hg). auto.
Qed.

Lemma assoc_head n w l : assoc n ((n, w) :: l) = Some w.
Proof. simpl. rewrite Nat.eqb_refl. reflexivity. Qed.

(** The only group of a sequence holds a word of its body, a piece of the
    text the match starts in. *)
Lemma matches_sole_group n body r :
  sole_group n body r -> bol_free body = true ->
  forall st st', matches r st st' ->
  exists w, lang body w /\ assoc n (caps st') = Some w /\ infix w (rest st).
Proof.
  intros Hs Hb. induction Hs as [Hg | r1 r2 Hs IH Hg | r1 r2 Hg Hs IH];
    intros st st' Hm.
  - apply matches_grp_inv in Hm. destruct Hm as (st1 & Hm & ->).
    apply matches_lang in Hm; [| exact Hb].
    destruct Hm as (w & L & E & P). exists w. split; [exact L |].
    unfold capture. cbn [caps]. rewrite assoc_head, P, E.
    replace (pos st + List.length w - pos st) with (List.length w) by lia.
    rewrite firstn_app, Nat.sub_diag, firstn_all. simpl. rewrite app_nil_r.
    split; [reflexivity |]. exists [], (rest st1). reflexivity.
  - apply matches_seq_inv in Hm. destruct Hm as (st1 & H1 & H2).
    destruct (IH st st1 H1) as (w & L & A & I).
    exists w. rewrite (matches_group_free r2 st1 st' Hg H2). auto.
  - apply matches_seq_inv in Hm. destruct Hm as (st1 & H1 & H2).
    destruct (IH st1 st' H2) as (w & L & A & (pre & post & I)).
    apply matches_word in H1. destruct H1 as (w1 & E1 & _).
    exists w. split; [exact L |]. split; [exact A |].
    exists (w1 ++ pre), post. rewrite E1, I, <- app_assoc. reflexivity.
Qed.

Lemma infix_skipn w (text : str) i : infix w (skipn i text) -> infix w text.
Proof.
  intros (pre & post & E). exists (firstn i text ++ pre), post.
  rewrite <- app_assoc, <- E. symmetry. apply firstn_skipn.
Qed.

Lemma sole_group_symbol : sole_group 1 number symbol_amount.
Proof.
  unfold symbol_amount. cbn [seqs].
  apply sg_right; [reflexivity |]. apply sg_right; [reflexivity |].
  apply sg_right; [reflexivity |]. apply sg_here. reflexivity.
Qed.

Lemma sole_group_bare : sole_group 1 number bare_amount.
Proof.
  unfold bare_amount. cbn [seqs].
  apply sg_right; [reflexivity |]. apply sg_left; [| reflexivity].
  apply sg_here. reflexivity.
Qed.

(** When an amount pattern is found, the amount is the float of the money
    literal in group 1 of the leftmost match. *)
Lemma search_amount r text m :
  sole_group 1 number r -> search r text = Some m ->
  exists g,
    group1 m = Return g /\ group 1 m = Some g /\ infix g text
    /\ money_literal g
    /\ float_of_str (replace "," [] g) = Some (amount_of_literal g)
    /\ leftmost r text m.
Proof.
  intros Hs E. pose proof (search_leftmost r text m E) as Hl.
  destruct Hl as (st' & Hi & Hm & He & Hc & Hleft).
  destruct (matches_sole_group 1 number r Hs eq_refl _ _ Hm) as (g & L & A & I).
  apply lang_number in L. exists g. unfold group1, group. rewrite Hc, A.
  repeat split; auto.
  - apply (infix_skipn g text (m_start m)). exact I.
  - apply float_of_money_literal. exact L.
  - exists st'. auto.
Qed.

End Number.

(** ** Where the amount patterns occur *)

Section Occurrences.

Lemma infix_trans a b c : infix a b -> infix b c -> infix a c.
Proof.
  intros (p1 & q1 & ->) (p2 & q2 & ->).
  exists (p2 ++ p1), (q1 ++ q2). rewrite <- !app_assoc. reflexivity.
Qed.

Lemma occurs_lang r text :
  bol_free r = true -> (occurs r text <-> exists w, lang r w /\ infix w text).
Proof. intros Hb. rewrite <- found_iff. apply found_lang. exact Hb. Qed.

Lemma lang_sign_opt_nil : lang sign_opt [].
Proof. right. reflexivity. Qed.

Lemma lang_symbol_amount w :
  lang symbol_amount w
  <-> exists s ws g,
        w = s ++ "$"%char :: ws ++ g
        /\ lang sign_opt s /\ blank ws = true /\ money_literal g.
Proof.
  unfold symbol_amount. cbn [seqs].
  change (lang (Seq sign_opt (Seq (chr false "$") (Seq (Star space) (Grp 1 number)))) w)
    with (exists s w1, w = s ++ w1 /\ lang sign_opt s /\
          exists d w2, w1 = d ++ w2 /\ lang (chr false "$") d /\
          exists ws g, w2 = ws ++ g /\ lang (Star space) ws /\ lang number g).
  unfold space. split.
  - intros (s & w1 & -> & Hs & d & w2 & -> & Hd & ws & g & -> & Hws & Hg).
    apply lang_chr_exact in Hd. subst d. apply lang_star_chr in Hws.
    apply lang_number in Hg. exists s, ws, g. auto.
  - intros (s & ws & g & -> & Hs & Hws & Hg).
    exists s, ("$"%char :: ws ++ g). split; [reflexivity |].
    split; [exact Hs |].
    exists ["$"%char], (ws ++ g). split; [reflexivity |].
    split; [apply lang_chr_exact; reflexivity |].
    exists ws, g. split; [reflexivity |].
    split; [apply lang_star_chr; exact Hws | apply lang_number; exact Hg].
Qed.

(** The currency-symbol pattern matches somewhere exactly when the text
    holds a dollar sign, white space if any, and a money literal. *)
Lemma occurs_symbol_amount text :
  occurs symbol_amount text <-> has_symbol_amount text.
Proof.
  rewrite (occurs_lang symbol_amount text eq_refl). unfold has_symbol_amount.
  split.
  - intros (w & L & I). apply lang_symbol_amount in L.
    destruct L as (s & ws & g & -> & _ & Hws & Hg).
    exists ws, g. split; [| auto].
    apply (infix_trans _ (s ++ "$"%char :: ws ++ g)); [| exact I].
    exists s, []. rewrite app_nil_r. reflexivity.
  - intros (ws & g & I & Hws & Hg). exists ("$"%char :: ws ++ g).
    split; [| exact I]. apply lang_symbol_amount.
    exists [], ws, g. split; [reflexivity |].
    split; [exact lang_sign_opt_nil | auto].
Qed.

Lemma lang_bare_amount w :
  lang bare_amount w
  <-> exists s g t,
        w = s ++ g ++ t /\ lang sign_opt s /\ money_literal g
        /\ lang (Seq (Star space)
                     (opt (alts [word false (lit "USD"); word false (lit "usd");
                                 word false (lit "US$")]))) t.
Proof.
  unfold bare_amount. cbn [seqs].
  set (tail := Seq (Star space) _).
  change (lang (Seq sign_opt (Seq (Grp 1 number) tail)) w)
    with (exists s w1, w = s ++ w1 /\ lang sign_opt s /\
          exists g t, w1 = g ++ t /\ lang number g /\ lang tail t).
  split.
  - intros (s & w1 & -> & Hs & g & t & -> & Hg & Ht).
    apply lang_number in Hg. exists s, g, t. auto.
  - intros (s & g & t & -> & Hs & Hg & Ht).
    exists s, (g ++ t). split; [reflexivity |]. split; [exact Hs |].
    exists g, t. split; [reflexivity |].
    split; [apply lang_number; exact Hg | exact Ht].
Qed.

(** The bare-number pattern matches somewhere exactly when the text holds
    a money literal. *)
Lemma occurs_bare_amount text :
  occurs bare_amount text <-> has_bare_amount text.
Proof.
  rewrite (occurs_lang bare_amount text eq_refl). unfold has_bare_amount.
  split.
  - intros (w & L & I). apply lang_bare_amount in L.
    destruct L as (s & g & t & -> & _ & Hg & _).
    exists g. split; [| exact Hg].
    apply (infix_trans _ (s ++ g ++ t)); [| exact I]. exists s, t. reflexivity.
  - intros (g & I & Hg). exists g. split; [| exact I].
    apply lang_bare_amount. exists [], g, []. rewrite app_nil_r.
    split; [reflexivity |]. split; [exact lang_sign_opt_nil |].
    split; [exact Hg |].
    exists [], []. split; [reflexivity |]. split.
    + exists []. split; [reflexivity | constructor].
    + right. reflexivity.
Qed.

End Occurrences.

(** ** The two filters on a line *)

Section Filters.

Lemma lang_date_like w :
  lang date_like w <-> slash_date_like w \/ iso_date_like w.
Proof.
  unfold date_like, slash_date_like, iso_date_like, digits, digit.
  cbn [seqs lang]. split.
  - intros [H | H]; [left | right].
    + destruct H as (a & r1 & -> & Ha & s1 & r2 & -> & Hs1 & b & r3 & ->
                     & Hb & s2 & c & -> & Hs2 & Hc).
      apply lang_between in Ha; [| lia]. apply lang_between in Hb; [| lia].
      apply lang_between in Hc; [| lia].
      apply lang_chr_exact in Hs1, Hs2. subst s1 s2.
      exists a, b, c. simpl. tauto.
    + destruct H as (a & r1 & -> & Ha & s1 & r2 & -> & Hs1 & b & r3 & ->
                     & Hb & s2 & c & -> & Hs2 & Hc).
      apply lang_times in Ha, Hb, Hc.
      apply lang_chr_exact in Hs1, Hs2. subst s1 s2.
      exists a, b, c. simpl. tauto.
  - intros [(a & b & c & -> & Da & La & Db & Lb & Dc & Lc)
           | (a & b & c & -> & Da & La & Db & Lb & Dc & Lc)]; [left | right].
    + exists a, ("/"%char :: b ++ "/"%char :: c). split; [reflexivity |].
      split; [apply lang_between; [lia | tauto] |].
      exists ["/"%char], (b ++ "/"%char :: c). split; [reflexivity |].
      split; [apply lang_chr_exact; reflexivity |].
      exists b, ("/"%char :: c). split; [reflexivity |].
      split; [apply lang_between; [lia | tauto] |].
      exists ["/"%char], c. split; [reflexivity |].
      split; [apply lang_chr_exact; reflexivity |].
      apply lang_between; [lia | tauto].
    + exists a, ("-"%char :: b ++ "-"%char :: c). split; [reflexivity |].
      split; [apply lang_times; tauto |].
      exists ["-"%char], (b ++ "-"%char :: c). split; [reflexivity |].
      split; [apply lang_chr_exact; reflexivity |].
      exists b, ("-"%char :: c). split; [reflexivity |].
      split; [apply lang_times; tauto |].
      exists ["-"%char], c. split; [reflexivity |].
      split; [apply lang_chr_exact; reflexivity |].
      apply lang_times; tauto.
Qed.

Lemma found_date_like ln : found date_like ln = true <-> has_date_like ln.
Proof.
  rewrite (found_lang date_like ln eq_refl). unfold has_date_like.
  split; intros (w & H1 & H2); exists w.
  - apply lang_date_like in H1. tauto.
  - apply lang_date_like in H2. tauto.
Qed.

Lemma lang_money_words w :
  lang money_words w <-> exists kw, In kw label_words /\ same_letters w kw.
Proof.
  unfold money_words. fold label_words. rewrite lang_alts. split.
  - intros (r & Hin & H). apply in_map_iff in Hin.
    destruct Hin as (kw & <- & Hkw). apply lang_word_icase in H. eauto.
  - intros (kw & Hkw & H). exists (word true kw). split.
    + apply in_map. exact Hkw.
    + apply lang_word_icase. exact H.
Qed.

Lemma bol_free_word ic kw : bol_free (word ic kw) = true.
Proof.
  induction kw as [| c [| c' kw] IH]; try reflexivity.
  change (word ic (c :: c' :: kw)) with (Seq (chr ic c) (word ic (c' :: kw))).
  simpl bol_free. exact IH.
Qed.

Lemma found_money_words ln : found money_words ln = true <-> has_label ln.
Proof.
  rewrite (found_lang money_words ln eq_refl). unfold has_label.
  split.
  - intros (w & H1 & H2). apply lang_money_words in H1.
    destruct H1 as (kw & Hkw & Hs). eauto.
  - intros (w & kw & H1 & H2 & H3). exists w. split; [| exact H1].
    apply lang_money_words. eauto.
Qed.

(** A line is kept exactly when it is not excluded in the words of the
    specification. *)
Lemma kept_true_iff ln : kept ln = true <-> ~ excluded ln.
Proof.
  unfold kept, excluded.
  rewrite <- found_date_like, <- found_money_words.
  destruct (found date_like ln), (found money_words ln); simpl;
    split; intros H; try discriminate; try reflexivity;
    try (intros [? | ?]; discriminate); exfalso; apply H; auto.
Qed.

Lemma kept_false_iff ln : kept ln = false <-> excluded ln.
Proof.
  unfold kept, excluded.
  rewrite <- found_date_like, <- found_money_words.
  destruct (found date_like ln), (found money_words ln); simpl;
    split; intros H; auto; try discriminate; destruct H; discriminate.
Qed.

Lemma chosen_spec lines d : chosen lines d -> spec_description lines d.
Proof.
  intros [(pre & post & E & Hpre & Hd) | [Hall Hrest]]; [left | right].
  - exists pre, post. split; [exact E |]. split.
    + intros y Hy. apply kept_false_iff. auto.
    + apply kept_true_iff. exact Hd.
  - split; [| exact Hrest]. intros y Hy. apply kept_false_iff. auto.
Qed.

End Filters.

(** ** The fixtures of the specification *)

Lemma minus_after_space pre post :
  minus_seen (pre ++ lit " -" ++ post) = true.
Proof.
  unfold minus_seen. apply found_iff.
  exists (List.length pre).
  exists (advance (capture 1 (MState (List.length pre) (lit " -" ++ post) [])
                     (advance (MState (List.length pre) (lit " -" ++ post) [])
                              (lit "-" ++ post)))
             post).
  split; [rewrite length_app; lia |].
  unfold at_offset. rewrite skipn_app, Nat.sub_diag, skipn_all. simpl app.
  unfold minus_pattern. eapply M_Seq.
  - apply M_Grp. apply M_AltR. apply M_Chr with (c := " "%char); reflexivity.
  - apply M_Chr with (c := "-"%char); reflexivity.
Qed.

Lemma minus_at_start post : minus_seen (lit "-" ++ post) = true.
Proof.
  unfold minus_seen. apply found_iff.
  exists 0.
  exists (advance (capture 1 (MState 0 (lit "-" ++ post) [])
                             (MState 0 (lit "-" ++ post) []))
                  post).
  split; [lia |].
  unfold at_offset, minus_pattern. simpl skipn. eapply M_Seq.
  - apply M_Grp. apply M_AltL. apply M_Bol. reflexivity.
  - apply M_Chr with (c := "-"%char); reflexivity.
Qed.

Section Fixtures.

Variable now : datetime.

(** C2. Parsing "Salary deposit 1500.00 03/15/2025" gives direction income,
    amount 1500.00 and the date 2025-03-15: the slash pattern finds
    "03/15/2025", the day-first format rejects it (there is no month 15) and
    the month-first format, which comes after it in the list, parses it. *)
Theorem parse_salary_deposit :
  let text := lit "Salary deposit 1500.00 03/15/2025" in
  parse_text now text
    = Return (Result (lit "2025-03-15T00:00:00") (float_of_nat 1500) income
                     text (Some text))
  /\ option_map (group 1) (search slash_date text)
       = Some (Some (lit "03/15/2025"))
  /\ find_date [iso_date] text = Return None
  /\ strptime (lit "03/15/2025") (lit "%Y-%m-%d") = None
  /\ strptime (lit "03/15/2025") (lit "%d/%m/%Y") = None
  /\ strptime (lit "03/15/2025") (lit "%m/%d/%Y")
       = Some (DateTime 2025 3 15 0 0 0 0).
Proof. vm_compute. repeat split; reflexivity. Qed.

(** C3. Parsing "-20.00 refund Jan 5, 2025" gives the amount 20.00, a
    magnitude that is not negative, direction income and the date
    2025-01-05 from the month-name pattern; the minus sign at the start and
    the word "refund" are both seen, and for every text either of the two
    is enough for income. *)
Theorem parse_negative_refund :
  let text := lit "-20.00 refund Jan 5, 2025" in
  parse_text now text
    = Return (Result (lit "2025-01-05T00:00:00") (float_of_nat 20) income
                     text (Some text))
  /\ nonneg (float_of_nat 20) = true
  /\ minus_seen text = true
  /\ found income_words text = true
  /\ option_map (group 1) (search month_date text)
       = Some (Some (lit "Jan 5, 2025"))
  /\ (forall t, infer_direction t
        = if minus_seen t || found income_words t then income else expense).
Proof.
  cbv zeta. split; [vm_compute; reflexivity |].
  split; [reflexivity |]. split; [vm_compute; reflexivity |].
  split; [vm_compute; reflexivity |]. split; [vm_compute; reflexivity |].
  intros t. unfold infer_direction. destruct (minus_seen t); reflexivity.
Qed.

(** C10. "Coffee Shop - Downtown 4.50" has no negative amount (the number
    found is 4.50, with no sign before it) and none of the income words,
    yet the hyphen of the merchant separator follows a space: the minus
    pattern matches and the direction is income, not expense.  The same
    holds of any text with a hyphen after a space, or at its start. *)
Theorem separator_hyphen_gives_income :
  let text := lit "Coffee Shop - Downtown 4.50" in
  found income_words text = false
  /\ option_map (fun m => (m_start m, group 1 m)) (search bare_amount text)
       = Some (23, Some (lit "4.50"))
  /\ search symbol_amount text = None
  /\ minus_seen text = true
  /\ option_map m_start (search minus_pattern text) = Some 11
  /\ parse_text now text
       = Return (Result (isoformat now) (float_of_fraction 450 100) income
                        text (Some (lit "Coffee Shop")))
  /\ (forall pre post, minus_seen (pre ++ lit " -" ++ post) = true)
  /\ (forall post, minus_seen (lit "-" ++ post) = true).
Proof.
  cbv zeta. split; [vm_compute; reflexivity |].
  split; [vm_compute; reflexivity |]. split; [vm_compute; reflexivity |].
  split; [vm_compute; reflexivity |]. split; [vm_compute; reflexivity |].
  split; [vm_compute; reflexivity |].
  split; [apply minus_after_space | apply minus_at_start].
Qed.

End Fixtures.

(** ** The parser and the clock *)

(** C6, as the claim states it, fails: "hello" holds no date, so the date of
    the result is the time of the call, and two calls on it at different
    times return different results. *)
Lemma parse_not_function_of_text_alone :
  parse_text (DateTime 2025 1 1 9 0 0 0) (lit "hello")
  <> parse_text (DateTime 2025 1 2 9 0 0 0) (lit "hello").
Proof. vm_compute. discriminate. Qed.

(** C6, amended. Two calls on the same text return the same outcome, or the
    text holds no date that parses and the two results are the same but
    for the date, which in each is the time of that call. *)
Theorem parse_depends_on_clock_only_for_date now1 now2 text :
  parse_text now1 text = parse_text now2 text
  \/ (find_date date_patterns (strip text) = Return None
      /\ exists r,
           parse_text now1 text = Return (with_date (isoformat now1) r)
           /\ parse_text now2 text = Return (with_date (isoformat now2) r)).
Proof.
  unfold parse_text.
  destruct (negb (nonempty (strip text))); [left; reflexivity |].
  generalize (find_amount amount_patterns (strip text)).
  intros [a | c d | e]; cbn [bind]; [| left; reflexivity | left; reflexivity].
  destruct (find_date date_patterns (strip text)) as [[d |] | c d | e];
    cbn [bind];
    [left; reflexivity | | left; reflexivity | left; reflexivity].
  generalize (describe (strip text)).
  intros [[de me] | c d | e]; cbn [bind];
    [| left; reflexivity | left; reflexivity].
  right. split; [reflexivity |].
  exists (Result [] (match a with Some x => x | None => zero end)
                 (infer_direction (strip text)) (or_empty de) (or_none me)).
  split; reflexivity.
Qed.

(** ** The handlers that write to the store *)

Lemma fabs_nonneg x : nonneg (fabs x) = negb (match x with S754_nan => true | _ => false end).
Proof. destruct x as [s | s | | s m e]; reflexivity. Qed.

Lemma model_dump_amount p : model_dump p !! "amount" = Some (VFloat (t_amount p)).
Proof. reflexivity. Qed.

(** On a reachable store a transaction is stored with the absolute value of
    the amount submitted, as the last document of the collection. *)
Lemma create_transaction_stores_abs p c n :
  let db := Database None c n in
  create_transaction p db
  = (Return n,
     Database None
       (<["transaction" :=
            coll db "transaction"
            ++ [<["amount" := VFloat (fabs (t_amount p))]> (model_dump p)]]> c)
       (S n)).
Proof. reflexivity. Qed.

(** The amount stored is not negative, whatever the sign submitted,
    provided the amount submitted is a number. *)
Lemma stored_amount_nonneg p :
  t_amount p <> S754_nan -> nonneg (fabs (t_amount p)) = true.
Proof.
  rewrite fabs_nonneg. destruct (t_amount p); intros H;
    [reflexivity | reflexivity | congruence | reflexivity].
Qed.

(** C7. The handler stores [abs(amount)], which is not below zero for any
    number; for the payload whose amount is NaN it stores NaN, and NaN is
    not [>= 0]. *)
Theorem create_transaction_nan_amount :
  let '(out, db) := create_transaction nan_payload empty_db in
  out = Return 0
  /\ exists doc,
       coll db "transaction" = [doc]
       /\ doc !! "amount" = Some (VFloat S754_nan)
       /\ nonneg S754_nan = false.
Proof.
  unfold empty_db. rewrite (create_transaction_stores_abs nan_payload ∅ 0).
  split; [reflexivity |]. eexists. split; [| split].
  - unfold coll. simpl. rewrite lookup_insert_eq. reflexivity.
  - reflexivity.
  - reflexivity.
Qed.

Lemma coll_create_document name data c n k :
  exists id,
    create_document name data (Database None c n)
    = inl (id, Database None (<[name := coll (Database None c n) name ++ [data]]> c) (S n))
    /\ coll (Database None (<[name := coll (Database None c n) name ++ [data]]> c) (S n)) k
       = if decide (k = name) then coll (Database None c n) name ++ [data]
         else coll (Database None c n) k.
Proof.
  exists n. split; [reflexivity |]. unfold coll. simpl.
  destruct (decide (k = name)) as [-> | Hne].
  - rewrite lookup_insert_eq. reflexivity.
  - rewrite lookup_insert_ne by congruence. reflexivity.
Qed.

(** Seeding a reachable store appends the documents to the collection
    named and leaves the other collections as they were. *)
Lemma create_all_reachable name docs :
  forall c n, exists c' n',
    create_all name docs (Database None c n) = inl (tt, Database None c' n')
    /\ forall k, coll (Database None c' n') k
                 = if decide (k = name)
                   then coll (Database None c n) name ++ docs
                   else coll (Database None c n) k.
Proof.
  induction docs as [| d docs IH]; intros c n.
  - exists c, n. split; [reflexivity |]. intros k.
    destruct (decide (k = name)) as [-> |]; [| reflexivity].
    symmetry. apply app_nil_r.
  - simpl.
    destruct (IH (<[name := coll (Database None c n) name ++ [d]]> c) (S n))
      as (c' & n' & E & Hc).
    exists c', n'. split; [exact E |]. intros k. rewrite Hc.
    destruct (coll_create_document name d c n name) as (_ & _ & Hn).
    destruct (coll_create_document name d c n k) as (_ & _ & Hk).
    destruct (decide (k = name)) as [-> | Hne].
    + rewrite Hn. destruct (decide (name = name)); [| congruence].
      rewrite <- app_assoc. reflexivity.
    + exact Hk.
Qed.

(** C8. From the empty store the first call seeds the 7 categories and the
    Cash account and the second call changes nothing, so two calls leave
    exactly 7 categories and 1 account.  On any reachable store a collection
    is seeded only when it is empty: a collection that has documents is left
    as it is. *)
Theorem setup_defaults_twice :
  (let '(out1, db1) := setup_defaults empty_db in
   let '(out2, db2) := setup_defaults db1 in
   out1 = Return tt /\ out2 = Return tt
   /\ coll db1 "category" = defaults /\ List.length defaults = 7
   /\ coll db1 "account" = [cash_account]
   /\ db2 = db1
   /\ List.length (coll db2 "category") = 7
   /\ List.length (coll db2 "account") = 1)
  /\ forall c n,
       let db := Database None c n in
       fst (setup_defaults db) = Return tt
       /\ coll (snd (setup_defaults db)) "category"
          = (if nonempty (coll db "category") then coll db "category"
             else defaults)
       /\ coll (snd (setup_defaults db)) "account"
          = (if nonempty (coll db "account") then coll db "account"
             else [cash_account]).
Proof.
  split.
  - vm_compute. repeat split; reflexivity.
  - intros c n db. unfold setup_defaults, count_documents, then_. simpl down.
    cbv iota.
    assert (Hseed : exists c1 n1,
      (if List.length (coll db "category") =? 0
       then create_all "category" defaults db else inl (tt, db))
      = inl (tt, Database None c1 n1)
      /\ coll (Database None c1 n1) "category"
         = (if nonempty (coll db "category") then coll db "category"
            else defaults)
      /\ coll (Database None c1 n1) "account" = coll db "account").
    { destruct (coll db "category") as [| x l] eqn:Ec; simpl.
      - destruct (create_all_reachable "category" defaults c n)
          as (c1 & n1 & E & Hc).
        exists c1, n1. split; [exact E |]. split.
        + rewrite (Hc "category"). fold db. rewrite Ec.
          destruct (decide ("category" = "category")); [reflexivity | congruence].
        + rewrite (Hc "account"). 
          destruct (decide ("account" = "category")); [discriminate | reflexivity].
      - exists c, n. fold db. rewrite Ec. auto. }
    destruct Hseed as (c1 & n1 & -> & Hcat & Hacc). simpl down. cbv iota.
    rewrite Hacc.
    destruct (coll db "account") as [| x l] eqn:Ea; simpl.
    + destruct (coll_create_document "account" cash_account c1 n1 "category")
        as (_ & _ & Hk1).
      destruct (coll_create_document "account" cash_account c1 n1 "account")
        as (_ & _ & Hk2).
      unfold create_document. simpl. split; [reflexivity |]. split.
      * rewrite Hk1. destruct (decide ("category" = "account")); [discriminate |].
        exact Hcat.
      * rewrite Hk2. destruct (decide ("account" = "account")); [| congruence].
        rewrite Hacc. reflexivity.
    + split; [reflexivity |]. split; [exact Hcat | exact Hacc].
Qed.

(** ** Which texts the parser rejects *)

(** C1. The parse operation fails, with the HTTPException of status 400,
    exactly when its text is empty or white space only; on every other text
    it returns a result: no exception leaves the handler. *)
Theorem parse_rejects_exactly_blank now text :
  (parse_text now text = HTTPException 400 (lit "Text is required")
   <-> blank text = true)
  /\ ((exists res, parse_text now text = Return res) <-> blank text = false).
Proof.
  destruct (blank text) eqn:Hb.
  - assert (E : parse_text now text = HTTPException 400 (lit "Text is required")).
    { unfold parse_text. apply strip_nil_iff in Hb. rewrite Hb. reflexivity. }
    rewrite E. split; split; auto; try discriminate.
    intros (res & H). discriminate.
  - destruct (parse_text_accepted now text Hb) as (a & dt & d & p & H).
    destruct H as (_ & _ & _ & _ & _ & _ & _ & ->).
    split; split; auto; try discriminate. eauto.
Qed.

(** C9. On every text the parser accepts the description is not empty and
    the merchant is present, not empty and at most 80 characters long: the
    stripped text has a line that is not blank, the description is one of
    its lines, and such a line does not begin with the separator. *)
Theorem accepted_text_has_description_and_merchant now text :
  blank text = false ->
  exists res m,
    parse_text now text = Return res
    /\ lines_of (strip text) <> []
    /\ In (description res) (lines_of (strip text))
    /\ description res <> []
    /\ merchant res = Some m
    /\ m <> [] /\ List.length m <= 80.
Proof.
  intros Hb. destruct (parse_text_accepted now text Hb) as (a & dt & d & p & H).
  destruct H as (_ & _ & Hin & _ & _ & Hd & Hp & ->).
  eexists. exists (firstn 80 p). split; [reflexivity |]. simpl.
  repeat split; auto.
  - intros E. rewrite E in Hin. exact Hin.
  - apply firstn_nonempty. exact Hp.
  - apply firstn_le_length.
Qed.

Lemma accepted_text_has_description_and_merchant_witness :
  blank (lit "  Acme Store - NY ") = false
  /\ exists res m,
       parse_text (DateTime 2025 1 31 12 0 0 0) (lit "  Acme Store - NY ")
       = Return res
       /\ lines_of (strip (lit "  Acme Store - NY ")) <> []
       /\ In (description res) (lines_of (strip (lit "  Acme Store - NY ")))
       /\ description res <> []
       /\ merchant res = Some m
       /\ m <> [] /\ List.length m <= 80.
Proof.
  split; [reflexivity |].
  apply (accepted_text_has_description_and_merchant
           (DateTime 2025 1 31 12 0 0 0) (lit "  Acme Store - NY ")).
  reflexivity.
Defined.

(** ** The amount *)

(** C4. On every accepted text the amount comes from the currency-symbol
    pattern when it matches somewhere, otherwise from the bare-number
    pattern when that matches somewhere; the literal taken has optional
    thousands separators and exactly two decimal digits, and the amount is
    the float of its value with the separators left out, a magnitude that
    is not negative.  When neither pattern matches anywhere the amount is
    0.0, and in every case a result is returned. *)
Theorem amount_extraction_spec now text :
  blank text = false ->
  exists res,
    parse_text now text = Return res
    /\ nonneg (amount res) = true
    /\ (amount_taken_from symbol_amount (strip text) (amount res)
        \/ (~ has_symbol_amount (strip text)
            /\ amount_taken_from bare_amount (strip text) (amount res))
        \/ (~ has_symbol_amount (strip text)
            /\ ~ has_bare_amount (strip text)
            /\ amount res = zero)).
Proof.
  intros Hb. destruct (parse_text_accepted now text Hb) as (a & dt & d & p & H).
  destruct H as (Ha & _ & _ & _ & _ & _ & _ & ->).
  eexists. split; [reflexivity |]. cbn [amount].
  unfold amount_patterns, find_amount in Ha.
  assert (Hfrom : forall r m, sole_group 1 number r ->
            search r (strip text) = Some m ->
            exists g, group1 m = Return g
                      /\ float_of_str (replace "," [] g) = Some (amount_of_literal g)
                      /\ fabs (amount_of_literal g) = amount_of_literal g
                      /\ nonneg (amount_of_literal g) = true
                      /\ amount_taken_from r (strip text) (amount_of_literal g)).
  { intros r m Hs E.
    destruct (search_amount r (strip text) m Hs E)
      as (g & G1 & G & I & L & F & Hl).
    exists g. split; [exact G1 |]. split; [exact F |].
    pose proof (float_of_fraction_magnitude (cents g) 100) as M.
    split; [apply magnitude_fabs; exact M |].
    split; [apply magnitude_nonneg; exact M |].
    exists m, g. repeat split; auto. }
  destruct (search symbol_amount (strip text)) as [m |] eqn:E1.
  - destruct (Hfrom _ m sole_group_symbol E1) as (g & G1 & F & A & N & T).
    rewrite G1 in Ha. cbn [bind] in Ha. rewrite F, A in Ha.
    injection Ha as <-. auto.
  - apply search_none_iff in E1. rewrite occurs_symbol_amount in E1.
    destruct (search bare_amount (strip text)) as [m |] eqn:E2.
    + destruct (Hfrom _ m sole_group_bare E2) as (g & G1 & F & A & N & T).
      rewrite G1 in Ha. cbn [bind] in Ha. rewrite F, A in Ha.
      injection Ha as <-. auto.
    + apply search_none_iff in E2. rewrite occurs_bare_amount in E2.
      injection Ha as <-.
      split; [reflexivity |]. auto.
Qed.

Lemma amount_extraction_spec_witness :
  blank (lit "Lunch $1,234.56 USD") = false
  /\ exists res,
       parse_text (DateTime 2025 1 31 12 0 0 0) (lit "Lunch $1,234.56 USD")
       = Return res
       /\ nonneg (amount res) = true
       /\ (amount_taken_from symbol_amount (strip (lit "Lunch $1,234.56 USD"))
                             (amount res)
           \/ (~ has_symbol_amount (strip (lit "Lunch $1,234.56 USD"))
               /\ amount_taken_from bare_amount
                    (strip (lit "Lunch $1,234.56 USD")) (amount res))
           \/ (~ has_symbol_amount (strip (lit "Lunch $1,234.56 USD"))
               /\ ~ has_bare_amount (strip (lit "Lunch $1,234.56 USD"))
               /\ amount res = zero)).
Proof.
  split; [reflexivity |].
  apply (amount_extraction_spec (DateTime 2025 1 31 12 0 0 0)
           (lit "Lunch $1,234.56 USD")).
  reflexivity.
Defined.

(** ** The description and the merchant *)

(** C5. On every accepted text the description is the first trimmed
    non-blank line that holds neither a slash date or ISO date nor one of
    the words "$", "USD", "Total", "Amount", "Balance" in any case, or the
    first such line of the text when every line holds one; the merchant is
    the description up to its first " - ", cut to 80 characters. *)
Theorem description_and_merchant_spec now text :
  blank text = false ->
  exists res p,
    parse_text now text = Return res
    /\ spec_description (lines_of (strip text)) (description res)
    /\ before_first (lit " - ") (description res) p
    /\ merchant res = Some (firstn 80 p).
Proof.
  intros Hb. destruct (parse_text_accepted now text Hb) as (a & dt & d & p & H).
  destruct H as (_ & _ & _ & Hch & Hp & _ & _ & ->).
  eexists. exists p. split; [reflexivity |]. simpl.
  split; [apply chosen_spec; exact Hch |]. split; [exact Hp | reflexivity].
Qed.

Lemma description_and_merchant_spec_witness :
  blank receipt = false
  /\ exists res p,
       parse_text (DateTime 2025 1 31 12 0 0 0) receipt = Return res
       /\ spec_description (lines_of (strip receipt)) (description res)
       /\ before_first (lit " - ") (description res) p
       /\ merchant res = Some (firstn 80 p).
Proof.
  split; [reflexivity |].
  apply (description_and_merchant_spec (DateTime 2025 1 31 12 0 0 0) receipt).
  reflexivity.
Defined.
